(** * cc/resources/task_graph_runner.cc: the task-graph scheduler

    A shallow embedding of [cc::internal::TaskGraphRunner] and of the helper
    class [DependentIterator], followed by the properties of the scheduler
    that the design document states about it.

    Conventions of the embedding:
    - a [Task*] is a natural number (pointer identity); the [did_run_] flag of
      the task objects is a shared store kept in the runner state;
    - [unsigned] counters are integers modulo [2^32], with the wrap-around of
      [--] and [++] written out;
    - [std::vector] is [list]; the hash map [namespaces_] is a [gmap];
    - [TaskNamespace*] entries of [ready_to_run_namespaces_] are the keys of
      the namespaces in [namespaces_];
    - [RunTaskWithLockAcquired] releases the lock while the task body runs, so
      it is split in the part before and the part after the body. *)

From Stdlib Require Import ZArith Lia.
From stdpp Require Import base list sorting gmap fin_maps.

Local Open Scope Z_scope.

(** ** Unsigned arithmetic *)

(** Modelled from the spec: the types of [Node::dependencies] and of
    [num_running_tasks] are declared in task_graph_runner.h. They are
    "unsigned integer"; 32 bits are taken here, and no property below
    depends on the width. *)
Definition UINT_MOD : Z := 2 ^ 32.

(** [x--] on an [unsigned]. *)
Definition udec (x : Z) : Z := (x - 1) mod UINT_MOD.

(** [x++] on an [unsigned]. *)
Definition uinc (x : Z) : Z := (x + 1) mod UINT_MOD.

(** ** The heap algorithms of <algorithm> *)

(** A comparator in the sense of the C++ [Compare] requirements. The third
    law is transitivity of "not less than", which for an irreflexive
    transitive relation is the same as transitivity of incomparability. *)
Record StrictWeakOrder {A : Type} (comp : A → A → bool) : Prop := {
  swo_irrefl : ∀ x, comp x x = false;
  swo_trans : ∀ x y z, comp x y = true → comp y z = true → comp x z = true;
  swo_neg_trans : ∀ x y z, comp x y = false → comp y z = false → comp x z = false
}.

(** [std::is_heap]: no element is greater than its parent. *)
Definition is_heap {A : Type} (comp : A → A → bool) (l : list A) : Prop :=
  ∀ (i : nat) x y, (0 < i)%nat →
    l !! ((i - 1) / 2)%nat = Some x → l !! i = Some y → comp x y = false.

(** [std::make_heap], [std::push_heap] and [std::pop_heap] belong to the C++
    standard library. They are characterised by what the standard guarantees:
    each rearranges the range, [make_heap] and [push_heap] leave a heap, and
    [pop_heap] moves the first element to the last position and leaves a heap
    in front of it. [push_heap] and [pop_heap] require a heap on entry. *)
Class HeapAlgorithms := {
  make_heap : ∀ {A : Type}, (A → A → bool) → list A → list A;
  push_heap : ∀ {A : Type}, (A → A → bool) → list A → list A;
  pop_heap : ∀ {A : Type}, (A → A → bool) → list A → list A;
  make_heap_perm : ∀ (A : Type) (comp : A → A → bool) (l : list A),
    StrictWeakOrder comp → make_heap comp l ≡ₚ l;
  make_heap_is_heap : ∀ (A : Type) (comp : A → A → bool) (l : list A),
    StrictWeakOrder comp → is_heap comp (make_heap comp l);
  push_heap_perm : ∀ (A : Type) (comp : A → A → bool) (l : list A) (x : A),
    StrictWeakOrder comp → is_heap comp l →
    push_heap comp (l ++ [x]) ≡ₚ l ++ [x];
  push_heap_is_heap : ∀ (A : Type) (comp : A → A → bool) (l : list A) (x : A),
    StrictWeakOrder comp → is_heap comp l →
    is_heap comp (push_heap comp (l ++ [x]));
  pop_heap_spec : ∀ (A : Type) (comp : A → A → bool) (x : A) (l : list A),
    StrictWeakOrder comp → is_heap comp (x :: l) →
    ∃ l', pop_heap comp (x :: l) = l' ++ [x] ∧ l' ≡ₚ l ∧ is_heap comp l'
}.

(** ** Data model *)

(** [Task*]. *)
Definition Task := nat.

(** [TaskGraph::Node]. *)
Record Node := mkNode {
  node_task : Task;
  node_priority : Z;
  node_dependencies : Z
}.

(** [TaskGraph::Edge]. *)
Record Edge := mkEdge {
  edge_task : Task;
  edge_dependent : Task
}.

Record TaskGraph := mkTaskGraph {
  nodes : list Node;
  edges : list Edge
}.

(** [TaskGraphRunner::PrioritizedTask]. *)
Record PrioritizedTask := mkPrioritizedTask {
  pt_task : Task;
  pt_priority : Z
}.

(** [TaskGraphRunner::TaskNamespace]. *)
Record TaskNamespace := mkTaskNamespace {
  graph : TaskGraph;
  ready_to_run_tasks : list PrioritizedTask;
  completed_tasks : list Task;
  num_running_tasks : Z
}.

(** The members of [TaskGraphRunner] that the lock guards, with the
    [did_run_] flags of the task objects; [running_tasks_] holds [NULL]
    ([None]) in the slot of an idle worker. *)
Record TaskGraphRunner := mkTaskGraphRunner {
  namespaces_ : gmap nat TaskNamespace;
  ready_to_run_namespaces_ : list nat;
  running_tasks_ : list (option Task);
  did_run_ : gset Task;
  next_namespace_id_ : nat
}.

#[global] Instance Node_eq_dec : EqDecision Node.
Proof. solve_decision. Defined.
#[global] Instance Edge_eq_dec : EqDecision Edge.
Proof. solve_decision. Defined.
#[global] Instance PrioritizedTask_eq_dec : EqDecision PrioritizedTask.
Proof. solve_decision. Defined.

(** ** Helpers declared in task_graph_runner.h *)

(** Modelled from the spec: [TaskGraphRunner::CompareTaskPriority] is declared
    in task_graph_runner.h. "[a < b] iff [a.priority > b.priority]": the
    numerically lower priority is the greater element of the heap. *)
Definition CompareTaskPriority (a b : PrioritizedTask) : bool :=
  pt_priority a >? pt_priority b.

(** The priority of the task at the front of a namespace's ready heap. Both
    namespaces handed to the comparator are required to have a ready task;
    0 stands for the value read outside that contract. *)
Definition head_priority (m : gmap nat TaskNamespace) (id : nat) : Z :=
  match m !! id with
  | Some ns =>
      match ready_to_run_tasks ns with
      | pt :: _ => pt_priority pt
      | [] => 0
      end
  | None => 0
  end.

(** Modelled from the spec: [TaskGraphRunner::CompareTaskNamespacePriority] is
    declared in task_graph_runner.h. It compares "the priority of each
    namespace's current head ready task" in the order of
    [CompareTaskPriority]. *)
Definition CompareTaskNamespacePriority (m : gmap nat TaskNamespace)
    (a b : nat) : bool :=
  head_priority m a >? head_priority m b.

(** Modelled from the spec: [HasFinishedRunningTasksInNamespace] is declared
    in task_graph_runner.h. "[ready_to_run_tasks.empty ∧ num_running_tasks == 0
    ∧ graph.nodes.empty]". *)
Definition HasFinishedRunningTasksInNamespace (ns : TaskNamespace) : bool :=
  bool_decide (ready_to_run_tasks ns = [])
  && (num_running_tasks ns =? 0)
  && bool_decide (nodes (graph ns) = []).

(** Modelled from the spec: [TaskGraph::Node::TaskComparator] is declared in
    task_graph_runner.h; it selects the node of a given task.
    [find_node t ns] is the position [std::find_if] returns with it, [None]
    for [end()]. *)
Fixpoint find_node (t : Task) (ns : list Node) : option nat :=
  match ns with
  | [] => None
  | n :: ns' =>
      if decide (node_task n = t) then Some O
      else S <$> find_node t ns'
  end.

(** [Task::HasFinishedRunning]. *)
Definition HasFinishedRunning (did_run : gset Task) (t : Task) : bool :=
  bool_decide (t ∈ did_run).

(** [std::find(running_tasks_.begin(), running_tasks_.end(), task) !=
    running_tasks_.end()]. *)
Definition is_running (running : list (option Task)) (t : Task) : bool :=
  bool_decide (Some t ∈ running).

(** ** DependentIterator *)

(** [node.dependencies--] on the node at position [i]. *)
Definition decrement_dependencies (i : nat) (ns : list Node) : list Node :=
  alter (λ n, mkNode (node_task n) (node_priority n)
                     (udec (node_dependencies n))) i ns.

(** The loop [for (DependentIterator it(graph, task); it; ++it)] with the
    body applied to the node the iterator points at.
    [operator++] scans the edges in order for the next edge whose source is
    the task and looks up the first node of that edge's dependent. The body
    acts on a state [St] that holds the nodes of the graph ([get_nodes]) and
    receives the position of the current node. The iterator asserts that the
    node exists; an edge without a node is passed over. *)
Fixpoint for_each_dependent {St : Type} (get_nodes : St → list Node)
    (body : nat → St → St) (task : Task) (es : list Edge) (s : St) : St :=
  match es with
  | [] => s
  | e :: es' =>
      if decide (edge_task e = task) then
        match find_node (edge_dependent e) (get_nodes s) with
        | Some i => for_each_dependent get_nodes body task es' (body i s)
        | None => for_each_dependent get_nodes body task es' s
        end
      else for_each_dependent get_nodes body task es' s
  end.

(** ** SetTaskGraph *)

(** "First adjust number of dependencies to reflect completed tasks." *)
Definition discount_completed (completed : list Task) (g : TaskGraph)
    : list Node :=
  foldl (λ ns t, for_each_dependent id decrement_dependencies t (edges g) ns)
        (nodes g) completed.

(** [std::swap] of the found node with [nodes.back()], then
    [nodes.pop_back()]. *)
Definition swap_remove {A : Type} (i : nat) (l : list A) : list A :=
  match last l with
  | Some b => take (length l - 1) (<[i := b]> l)
  | None => l
  end.

(** The three tests of the loops of [SetTaskGraph]: a task is neither queued
    nor cancelled when it has finished running or is running on a worker. *)
Definition finished_or_running (s : TaskGraphRunner) (t : Task) : bool :=
  HasFinishedRunning (did_run_ s) t || is_running (running_tasks_ s) t.

(** "Build new ready to run queue and remove nodes from old graph": the loop
    over the nodes of the new graph. It returns what is left of the old
    graph's nodes and the new [ready_to_run_tasks] before [make_heap]. *)
Fixpoint build_ready (s : TaskGraphRunner) (new_nodes old : list Node)
    (ready : list PrioritizedTask) : list Node * list PrioritizedTask :=
  match new_nodes with
  | [] => (old, ready)
  | node :: rest =>
      let old' :=
        match find_node (node_task node) old with
        | Some i => swap_remove i old
        | None => old
        end in
      if negb (node_dependencies node =? 0) then build_ready s rest old' ready
      else if finished_or_running s (node_task node)
      then build_ready s rest old' ready
      else build_ready s rest old'
             (ready ++ [mkPrioritizedTask (node_task node) (node_priority node)])
  end.

(** "Determine what tasks in old graph need to be canceled": the tasks that
    the loop appends to [completed_tasks]. *)
Definition canceled_tasks (s : TaskGraphRunner) (canceled_nodes : list Node)
    : list Task :=
  filter (λ t, finished_or_running s t = false) (node_task <$> canceled_nodes).

(** "Build new ready to run task namespaces queue": the namespaces of the
    map with a ready task, in the iteration order of the map. *)
Definition namespaces_with_ready_tasks (m : gmap nat TaskNamespace)
    : list nat :=
  (filter (λ kv, ready_to_run_tasks kv.2 ≠ []) (map_to_list m)).*1.

(** [TaskNamespace::TaskNamespace]: [num_running_tasks(0u)], the rest empty. *)
Definition new_TaskNamespace : TaskNamespace :=
  mkTaskNamespace (mkTaskGraph [] []) [] [] 0.

Section Scheduler.
Context `{HA : HeapAlgorithms}.

(** "Build new ready to run task namespaces queue", then [std::make_heap]. *)
Definition rebuild_ready_to_run_namespaces (m : gmap nat TaskNamespace)
    : list nat :=
  make_heap (CompareTaskNamespacePriority m) (namespaces_with_ready_tasks m).

(** The namespace that [SetTaskGraph] stores for the token. *)
Definition SetTaskGraph_namespace (s : TaskGraphRunner) (ns : TaskNamespace)
    (g : TaskGraph) : TaskNamespace :=
  let new_nodes := discount_completed (completed_tasks ns) g in
  let '(canceled_nodes, ready) :=
    build_ready s new_nodes (nodes (graph ns)) [] in
  mkTaskNamespace
    (mkTaskGraph new_nodes (edges g))
    (make_heap CompareTaskPriority ready)
    (completed_tasks ns ++ canceled_tasks s canceled_nodes)
    (num_running_tasks ns).

(** What [SetTaskGraph] leaves in the caller's [*graph] after
    [task_namespace->graph.Swap(graph)]: the nodes of the old graph that the
    new graph does not carry over, with the old edges. *)
Definition SetTaskGraph_out (s : TaskGraphRunner) (ns : TaskNamespace)
    (g : TaskGraph) : TaskGraph :=
  let new_nodes := discount_completed (completed_tasks ns) g in
  mkTaskGraph (build_ready s new_nodes (nodes (graph ns)) []).1
              (edges (graph ns)).

(** [TaskGraphRunner::SetTaskGraph(token, graph)]: the state on return and
    the contents of [*graph] on return. *)
Definition SetTaskGraph (token : nat) (g : TaskGraph) (s : TaskGraphRunner)
    : TaskGraphRunner * TaskGraph :=
  let ns := default new_TaskNamespace (namespaces_ s !! token) in
  let m := <[token := SetTaskGraph_namespace s ns g]>
             (delete token (namespaces_ s)) in
  (mkTaskGraphRunner m (rebuild_ready_to_run_namespaces m)
     (running_tasks_ s) (did_run_ s) (next_namespace_id_ s),
   SetTaskGraph_out s ns g).

(** ** CollectCompletedTasks *)

(** [TaskGraphRunner::CollectCompletedTasks(token, completed_tasks)]: the
    state on return and the contents of [*completed_tasks] on return. *)
Definition CollectCompletedTasks (token : nat) (out : list Task)
    (s : TaskGraphRunner) : TaskGraphRunner * list Task :=
  match namespaces_ s !! token with
  | None => (s, out)
  | Some ns =>
      let ns' := mkTaskNamespace (graph ns) (ready_to_run_tasks ns) out
                   (num_running_tasks ns) in
      if negb (HasFinishedRunningTasksInNamespace ns')
      then (mkTaskGraphRunner (<[token := ns']> (namespaces_ s))
              (ready_to_run_namespaces_ s) (running_tasks_ s) (did_run_ s)
              (next_namespace_id_ s),
            completed_tasks ns)
      else (mkTaskGraphRunner (delete token (namespaces_ s))
              (ready_to_run_namespaces_ s) (running_tasks_ s) (did_run_ s)
              (next_namespace_id_ s),
            completed_tasks ns)
  end.

(** ** GetNamespaceToken *)

Definition GetNamespaceToken (s : TaskGraphRunner) : TaskGraphRunner * nat :=
  (mkTaskGraphRunner (namespaces_ s) (ready_to_run_namespaces_ s)
     (running_tasks_ s) (did_run_ s) (S (next_namespace_id_ s)),
   next_namespace_id_ s).

(** ** RunTaskWithLockAcquired *)

(** [v.back()] and [v.pop_back()]; [None] on an empty vector. *)
Definition pop_back {A : Type} (l : list A) : option (list A * A) :=
  match last l with
  | Some x => Some (take (length l - 1) l, x)
  | None => None
  end.

(** [RunTaskWithLockAcquired] up to the release of the lock: the namespace
    and the task it takes, and the state in which the task body runs. [None]
    stands for the executions the assertions exclude (no ready namespace, a
    ready namespace without a ready task). *)
Definition RunTaskWithLockAcquired_begin (thread_index : nat)
    (s : TaskGraphRunner) : option (TaskGraphRunner * nat * Task) :=
  guard (ready_to_run_namespaces_ s ≠ []);;
  '(namespaces1, id) ←
     pop_back (pop_heap (CompareTaskNamespacePriority (namespaces_ s))
                        (ready_to_run_namespaces_ s));
  ns ← namespaces_ s !! id;
  guard (ready_to_run_tasks ns ≠ []);;
  '(ready1, pt) ←
     pop_back (pop_heap CompareTaskPriority (ready_to_run_tasks ns));
  let m1 := <[id := mkTaskNamespace (graph ns) ready1 (completed_tasks ns)
                      (num_running_tasks ns)]> (namespaces_ s) in
  let namespaces2 :=
    if bool_decide (ready1 ≠ [])
    then push_heap (CompareTaskNamespacePriority m1) (namespaces1 ++ [id])
    else namespaces1 in
  let m2 := <[id := mkTaskNamespace (graph ns) ready1 (completed_tasks ns)
                      (uinc (num_running_tasks ns))]> (namespaces_ s) in
  Some (mkTaskGraphRunner m2 namespaces2
          (<[thread_index := Some (pt_task pt)]> (running_tasks_ s))
          (did_run_ s) (next_namespace_id_ s),
        id, pt_task pt).

(** The state of the fan-out loop of [RunTaskWithLockAcquired]: the
    namespace, [ready_to_run_namespaces_] and the flag
    [ready_to_run_namespaces_has_heap_properties]. *)
Record FanOut := mkFanOut {
  fo_namespace : TaskNamespace;
  fo_ready_to_run_namespaces : list nat;
  fo_has_heap_properties : bool
}.

Definition fo_nodes (f : FanOut) : list Node := nodes (graph (fo_namespace f)).

(** The body of the fan-out loop for the dependent node at position [i] of
    the graph of namespace [id]. *)
Definition fan_out_body (id : nat) (i : nat) (f : FanOut) : FanOut :=
  let ns := fo_namespace f in
  let nodes' := decrement_dependencies i (nodes (graph ns)) in
  let g' := mkTaskGraph nodes' (edges (graph ns)) in
  match nodes' !! i with
  | Some dependent_node =>
      if node_dependencies dependent_node =? 0 then
        let was_empty := bool_decide (ready_to_run_tasks ns = []) in
        let ready' :=
          push_heap CompareTaskPriority
            (ready_to_run_tasks ns ++
               [mkPrioritizedTask (node_task dependent_node)
                                  (node_priority dependent_node)]) in
        mkFanOut
          (mkTaskNamespace g' ready' (completed_tasks ns) (num_running_tasks ns))
          (if was_empty then fo_ready_to_run_namespaces f ++ [id]
           else fo_ready_to_run_namespaces f)
          false
      else
        mkFanOut
          (mkTaskNamespace g' (ready_to_run_tasks ns) (completed_tasks ns)
             (num_running_tasks ns))
          (fo_ready_to_run_namespaces f) (fo_has_heap_properties f)
  | None => f
  end.

(** [RunTaskWithLockAcquired] from the point where it holds the lock again:
    [thread_index], [task_namespace] (the namespace [id]) and [task] are the
    locals of the call. [None] when the namespace no longer exists. *)
Definition RunTaskWithLockAcquired_end (thread_index : nat) (id : nat)
    (task : Task) (s : TaskGraphRunner) : option TaskGraphRunner :=
  ns ← namespaces_ s !! id;
  let ns1 := mkTaskNamespace (graph ns) (ready_to_run_tasks ns)
               (completed_tasks ns) (udec (num_running_tasks ns)) in
  let f := for_each_dependent fo_nodes (fan_out_body id) task
             (edges (graph ns1))
             (mkFanOut ns1 (ready_to_run_namespaces_ s) true) in
  let ns2 := fo_namespace f in
  let m := <[id := mkTaskNamespace (graph ns2) (ready_to_run_tasks ns2)
                     (completed_tasks ns2 ++ [task]) (num_running_tasks ns2)]>
             (namespaces_ s) in
  let m_heap := <[id := ns2]> (namespaces_ s) in
  Some (mkTaskGraphRunner m
          (if fo_has_heap_properties f then fo_ready_to_run_namespaces f
           else make_heap (CompareTaskNamespacePriority m_heap)
                  (fo_ready_to_run_namespaces f))
          (<[thread_index := None]> (running_tasks_ s))
          (did_run_ s ∪ {[task]}) (next_namespace_id_ s)).

End Scheduler.

Section Scheduler_calls.
Context `{HA : HeapAlgorithms}.

(** [RunTaskWithLockAcquired] when no other thread takes the lock while the
    task body runs (the body itself may not use the scheduler). *)
Definition RunTaskWithLockAcquired (thread_index : nat) (s : TaskGraphRunner)
    : option TaskGraphRunner :=
  '(s1, id, task) ← RunTaskWithLockAcquired_begin thread_index s;
  RunTaskWithLockAcquired_end thread_index id task s1.

(** [TaskGraphRunner::RunTaskForTesting]. *)
Definition RunTaskForTesting (s : TaskGraphRunner)
    : option (TaskGraphRunner * bool) :=
  if bool_decide (ready_to_run_namespaces_ s = []) then Some (s, false)
  else s' ← RunTaskWithLockAcquired 0 s; Some (s', true).

End Scheduler_calls.

(** [TaskGraphRunner::TaskGraphRunner(num_threads, ...)]: [running_tasks_]
    has [max(num_threads, 1)] empty slots and the first token is 1. *)
Definition TaskGraphRunner_new (num_threads : nat) : TaskGraphRunner :=
  mkTaskGraphRunner ∅ [] (replicate (num_threads `max` 1) None) ∅ 1.

(** ** WaitForTasksToFinishRunning *)

(** The outcome of a call that may block on a condition variable. *)
Inductive WaitOutcome :=
  | WaitReturned (s : TaskGraphRunner)
  | WaitBlocked
  | WaitUndefined.

(** The loop [while (!HasFinishedRunningTasksInNamespace(task_namespace))
    cv.Wait()]. [Wait] releases the lock and returns holding it again; the
    states the caller finds at each return of [Wait] are [wakeups]. The loop
    reads the namespace through the pointer taken before it; a namespace
    erased meanwhile is [WaitUndefined], and [WaitBlocked] is a caller still
    inside [Wait] when the wake-ups end. *)
Fixpoint wait_loop (token : nat) (s : TaskGraphRunner)
    (wakeups : list TaskGraphRunner) : WaitOutcome :=
  match namespaces_ s !! token with
  | None => WaitUndefined
  | Some ns =>
      if negb (HasFinishedRunningTasksInNamespace ns) then
        match wakeups with
        | [] => WaitBlocked
        | s' :: rest => wait_loop token s' rest
        end
      else WaitReturned s
  end.

(** [TaskGraphRunner::WaitForTasksToFinishRunning(token)]. *)
Definition WaitForTasksToFinishRunning (token : nat) (s : TaskGraphRunner)
    (wakeups : list TaskGraphRunner) : WaitOutcome :=
  match namespaces_ s !! token with
  | None => WaitReturned s
  | Some _ => wait_loop token s wakeups
  end.

(** ** Submitted graphs *)

(** The number of edges into the task [t]. *)
Definition incoming (es : list Edge) (t : Task) : nat :=
  length (filter (λ e, edge_dependent e = t) es).

(** "Invariants at submission": every node counts its incoming edges, both
    ends of every edge are nodes, and a task has one node. *)
Record well_formed_graph (g : TaskGraph) : Prop := {
  wf_dependencies : ∀ n, n ∈ nodes g →
    node_dependencies n = Z.of_nat (incoming (edges g) (node_task n));
  wf_edge_task : ∀ e, e ∈ edges g → edge_task e ∈ node_task <$> nodes g;
  wf_edge_dependent : ∀ e, e ∈ edges g →
    edge_dependent e ∈ node_task <$> nodes g;
  wf_nodup : NoDup (node_task <$> nodes g);
  wf_bound : Z.of_nat (length (edges g)) < UINT_MOD
}.

(** ** The scheduler with its worker threads *)

(** A worker inside a task body holds the locals [task_namespace] and [task]
    of its call of [RunTaskWithLockAcquired]; [frames] maps the thread index
    of each such worker to them. *)
Record System := mkSystem {
  runner : TaskGraphRunner;
  frames : gmap nat (nat * Task)
}.

Section Steps.
Context `{HA : HeapAlgorithms}.

(** One critical section of the scheduler: every step holds the lock from
    its start to its end. *)
Inductive step : System → System → Prop :=
  | step_GetNamespaceToken r fr :
      step (mkSystem r fr) (mkSystem (GetNamespaceToken r).1 fr)
  | step_SetTaskGraph r fr token g :
      token ≠ O → well_formed_graph g →
      step (mkSystem r fr) (mkSystem (SetTaskGraph token g r).1 fr)
  | step_CollectCompletedTasks r fr token :
      token ≠ O →
      step (mkSystem r fr) (mkSystem (CollectCompletedTasks token [] r).1 fr)
  | step_RunTask_begin r fr thread_index r' id task :
      fr !! thread_index = None →
      (thread_index < length (running_tasks_ r))%nat →
      RunTaskWithLockAcquired_begin thread_index r = Some (r', id, task) →
      step (mkSystem r fr) (mkSystem r' (<[thread_index := (id, task)]> fr))
  | step_RunTask_end r fr thread_index r' id task :
      fr !! thread_index = Some (id, task) →
      RunTaskWithLockAcquired_end thread_index id task r = Some r' →
      step (mkSystem r fr) (mkSystem r' (delete thread_index fr)).

(** The states the scheduler reaches from its construction. *)
Inductive reachable (num_threads : nat) : System → Prop :=
  | reachable_new :
      reachable num_threads (mkSystem (TaskGraphRunner_new num_threads) ∅)
  | reachable_step s s' :
      reachable num_threads s → step s s' → reachable num_threads s'.

End Steps.

(** ** A conforming implementation of the heap algorithms

    A sequence in which no element is less than a later one is a heap, so
    sorting implements the three algorithms. It is the instance at which the
    scheduler is evaluated on concrete inputs. *)
Module SortedHeap.

Fixpoint insert_sorted {A : Type} (comp : A → A → bool) (x : A) (l : list A)
    : list A :=
  match l with
  | [] => [x]
  | y :: l' =>
      if comp y x then x :: y :: l' else y :: insert_sorted comp x l'
  end.

Definition sort {A : Type} (comp : A → A → bool) (l : list A) : list A :=
  foldr (insert_sorted comp) [] l.

Definition pop {A : Type} (comp : A → A → bool) (l : list A) : list A :=
  match l with
  | [] => []
  | x :: l' => sort comp l' ++ [x]
  end.

(** No element is less than a later one. *)
Definition descending {A : Type} (comp : A → A → bool) (l : list A) : Prop :=
  StronglySorted (λ x y, comp x y = false) l.

Lemma insert_sorted_perm {A : Type} (comp : A → A → bool) x (l : list A) :
  insert_sorted comp x l ≡ₚ x :: l.
Proof.
  induction l as [|y l IH]; simpl; [done|].
  destruct (comp y x); [done|].
  rewrite IH. apply Permutation_swap.
Qed.

Lemma sort_perm {A : Type} (comp : A → A → bool) (l : list A) :
  sort comp l ≡ₚ l.
Proof.
  induction l as [|x l IH]; simpl; [done|].
  unfold sort in IH. by rewrite insert_sorted_perm, IH.
Qed.

Lemma insert_sorted_descending {A : Type} (comp : A → A → bool) x (l : list A) :
  StrictWeakOrder comp → descending comp l →
  descending comp (insert_sorted comp x l).
Proof.
  intros Hswo. unfold descending.
  induction l as [|y l IH]; intros Hl; simpl.
  - repeat constructor.
  - inversion_clear Hl as [|? ? Hl' Hy].
    destruct (comp y x) eqn:Hyx.
    + constructor; [by constructor|].
      constructor.
      * destruct (comp x y) eqn:Hxy; [|done].
        pose proof (swo_trans _ Hswo _ _ _ Hxy Hyx) as Hxx.
        by rewrite (swo_irrefl _ Hswo) in Hxx.
      * rewrite Forall_forall in Hy |- *. intros z Hz.
        destruct (comp x z) eqn:Hxz; [|done].
        pose proof (swo_trans _ Hswo _ _ _ Hyx Hxz) as Hyz.
        by rewrite (Hy z Hz) in Hyz.
    + constructor; [by apply IH|].
      rewrite Forall_forall in Hy |- *. intros z Hz.
      apply (elem_of_Permutation_proper _ _ _ (insert_sorted_perm comp x l)) in Hz.
      apply elem_of_cons in Hz as [->|Hz]; [done|by apply Hy].
Qed.

Lemma sort_descending {A : Type} (comp : A → A → bool) (l : list A) :
  StrictWeakOrder comp → descending comp (sort comp l).
Proof.
  intros Hswo. induction l as [|x l IH]; simpl; [constructor|].
  by apply insert_sorted_descending.
Qed.

Lemma descending_lookup {A : Type} (comp : A → A → bool) (l : list A) :
  descending comp l →
  ∀ (i j : nat) x y, (i < j)%nat → l !! i = Some x → l !! j = Some y →
  comp x y = false.
Proof.
  induction 1 as [|a l Hl IH Ha]; intros i j x y Hij Hi Hj; [done|].
  destruct j as [|j]; [lia|]. simpl in Hj.
  destruct i as [|i]; simpl in Hi.
  - injection Hi as ->. rewrite Forall_forall in Ha.
    apply Ha. by eapply list_elem_of_lookup_2.
  - eapply (IH i j); [lia|done..].
Qed.

Lemma descending_is_heap {A : Type} (comp : A → A → bool) (l : list A) :
  descending comp l → is_heap comp l.
Proof.
  intros Hl i x y Hi Hx Hy.
  eapply (descending_lookup comp l Hl ((i - 1) / 2) i); [|done..].
  destruct i as [|i]; [lia|].
  replace (S i - 1)%nat with i by lia.
  apply Nat.lt_succ_r, Nat.Div0.div_le_upper_bound. lia.
Qed.

Lemma pop_spec {A : Type} (comp : A → A → bool) x (l : list A) :
  StrictWeakOrder comp → is_heap comp (x :: l) →
  ∃ l', pop comp (x :: l) = l' ++ [x] ∧ l' ≡ₚ l ∧ is_heap comp l'.
Proof.
  intros Hswo _. exists (sort comp l). split; [done|].
  split; [apply sort_perm|].
  by apply descending_is_heap, sort_descending.
Qed.

(** [make_heap] and [push_heap] sort the range; [pop_heap] moves the first
    element to the back and sorts the rest. *)
Definition algorithms : HeapAlgorithms :=
  Build_HeapAlgorithms (@sort) (@sort) (@pop)
    (λ A comp l _, sort_perm comp l)
    (λ A comp l Hswo, descending_is_heap comp _ (sort_descending comp l Hswo))
    (λ A comp l x _ _, sort_perm comp (l ++ [x]))
    (λ A comp l x Hswo _,
       descending_is_heap comp _ (sort_descending comp (l ++ [x]) Hswo))
    (@pop_spec).

End SortedHeap.

(** * Properties *)

(** ** Comparators and heaps *)

Lemma gtb_key_StrictWeakOrder {A : Type} (key : A → Z) :
  StrictWeakOrder (λ a b, key a >? key b).
Proof.
  split; intros *; rewrite ?Z.gtb_ltb, ?Z.ltb_lt, ?Z.ltb_ge; lia.
Qed.

Lemma CompareTaskPriority_swo : StrictWeakOrder CompareTaskPriority.
Proof. apply (gtb_key_StrictWeakOrder pt_priority). Qed.

Lemma CompareTaskNamespacePriority_swo m :
  StrictWeakOrder (CompareTaskNamespacePriority m).
Proof. apply (gtb_key_StrictWeakOrder (head_priority m)). Qed.

#[local] Hint Resolve CompareTaskPriority_swo CompareTaskNamespacePriority_swo
  : core.

(** The first element of a heap is not less than any other element. *)
Lemma is_heap_top {A : Type} (comp : A → A → bool) x (l : list A) :
  StrictWeakOrder comp → is_heap comp (x :: l) →
  ∀ y, y ∈ x :: l → comp x y = false.
Proof.
  intros Hswo Hheap y Hy.
  apply list_elem_of_lookup in Hy as [i Hi]. revert y Hi.
  induction i as [i IH] using lt_wf_ind. intros y Hi.
  destruct (decide (i = 0%nat)) as [->|Hne].
  - injection Hi as <-. apply (swo_irrefl _ Hswo).
  - assert (Hlt : ((i - 1) / 2 < i)%nat).
    { destruct i as [|i]; [done|]. replace (S i - 1)%nat with i by lia.
      apply Nat.lt_succ_r, Nat.Div0.div_le_upper_bound. lia. }
    destruct (lookup_lt_is_Some_2 (x :: l) ((i - 1) / 2)) as [p Hp].
    { apply lookup_lt_Some in Hi. lia. }
    eapply (swo_neg_trans _ Hswo x p y).
    + by apply (IH _ Hlt).
    + apply (Hheap i); [lia|done..].
Qed.

(** A heap is a heap for every comparator that agrees on its elements. *)
Lemma is_heap_ext {A : Type} (comp comp' : A → A → bool) (l : list A) :
  (∀ x y, x ∈ l → y ∈ l → comp x y = comp' x y) →
  is_heap comp l → is_heap comp' l.
Proof.
  intros Heq Hheap i x y Hi Hx Hy.
  rewrite <- Heq; [by eapply Hheap|by eapply list_elem_of_lookup_2..].
Qed.

Lemma is_heap_nil {A : Type} (comp : A → A → bool) : is_heap comp [].
Proof. by intros i x y _ Hx. Qed.

(** ** Nodes and their removal *)

Lemma find_node_Some t (ns : list Node) i :
  find_node t ns = Some i →
  ∃ n, ns !! i = Some n ∧ node_task n = t ∧
       ∀ j m, (j < i)%nat → ns !! j = Some m → node_task m ≠ t.
Proof.
  revert i. induction ns as [|n ns IH]; intros i; simpl; [done|].
  destruct (decide (node_task n = t)) as [Heq|Hne].
  - intros [= <-]. exists n. split_and!; [done..|]. intros; lia.
  - destruct (find_node t ns) as [k|]; [|done].
    intros [= <-]. destruct (IH k eq_refl) as (m & Hm & Ht & Hfirst).
    exists m. split_and!; [done..|].
    intros [|j] m' Hj Hm'; simpl in Hm'; [congruence|].
    apply (Hfirst j); [lia|done].
Qed.

Lemma find_node_None t (ns : list Node) :
  find_node t ns = None ↔ t ∉ node_task <$> ns.
Proof.
  induction ns as [|n ns IH]; simpl.
  - split; [intros _; apply not_elem_of_nil|done].
  - rewrite not_elem_of_cons. destruct (decide (node_task n = t)) as [Heq|Hne].
    + split; [done|]. intros [? _]. congruence.
    + destruct (find_node t ns); simpl.
      * split; [done|]. intros [_ H]. by apply IH in H.
      * split; [|done]. intros _. split; [congruence|by apply IH].
Qed.

Lemma swap_remove_perm {A : Type} (l : list A) i x :
  l !! i = Some x → l ≡ₚ x :: swap_remove i l.
Proof.
  intros Hi. unfold swap_remove.
  destruct (list_elem_of_split_length l i x Hi) as (l1 & l2 & -> & Hlen).
  destruct l2 as [|y l2 _] using rev_ind.
  - rewrite last_snoc, list_insert_id by done.
    rewrite length_app. simpl.
    replace (length l1 + 1 - 1)%nat with (length l1) by lia.
    rewrite take_app_length. by rewrite Permutation_app_comm.
  - replace (l1 ++ x :: l2 ++ [y]) with ((l1 ++ x :: l2) ++ [y])
      by by rewrite <- app_assoc.
    rewrite last_snoc.
    rewrite insert_app_l by (rewrite length_app; simpl; lia).
    rewrite length_app. simpl.
    replace (length (l1 ++ x :: l2) + 1 - 1)%nat
      with (length (<[i:=y]> (l1 ++ x :: l2))) by by rewrite length_insert; lia.
    rewrite take_app_length.
    rewrite Hlen, insert_app_r_alt, Nat.sub_diag by done. simpl.
    rewrite <- !Permutation_middle, Permutation_app_comm. simpl.
    apply perm_swap.
Qed.

(** The step of [build_ready] on the old graph. *)
Definition remove_old_node (t : Task) (old : list Node) : list Node :=
  match find_node t old with
  | Some i => swap_remove i old
  | None => old
  end.

Lemma remove_old_node_count t t' (old : list Node) :
  count_occ Nat.eq_dec (node_task <$> remove_old_node t old) t' =
  (count_occ Nat.eq_dec (node_task <$> old) t' - (if decide (t = t') then 1 else 0))%nat.
Proof.
  unfold remove_old_node. destruct (find_node t old) as [i|] eqn:Hfind.
  - destruct (find_node_Some _ _ _ Hfind) as (n & Hn & Ht & _).
    pose proof (proj1 (Permutation_count_occ Nat.eq_dec _ _)
      (fmap_Permutation node_task _ _ (swap_remove_perm old i n Hn))) as Hp.
    rewrite (Hp t'). rewrite fmap_cons. simpl.
    destruct (Nat.eq_dec (node_task n) t'), (decide (t = t')); try congruence; lia.
  - apply find_node_None in Hfind.
    destruct (decide (t = t')) as [<-|]; [|lia].
    rewrite (proj1 (count_occ_not_In Nat.eq_dec _ t)); [done|].
    by rewrite <- list_elem_of_In.
Qed.

Lemma build_ready_fst s new old ready :
  (build_ready s new old ready).1 =
  foldl (λ o n, remove_old_node (node_task n) o) old new.
Proof.
  revert old ready. induction new as [|n new IH]; intros old ready; simpl; [done|].
  fold (remove_old_node (node_task n) old).
  destruct (negb _); [apply IH|]. destruct (finished_or_running _ _); apply IH.
Qed.

(** The old nodes that are left count, for each task, the old nodes of the
    task beyond the new nodes of the task. *)
Lemma build_ready_fst_count s new old ready t :
  count_occ Nat.eq_dec (node_task <$> (build_ready s new old ready).1) t =
  (count_occ Nat.eq_dec (node_task <$> old) t -
   count_occ Nat.eq_dec (node_task <$> new) t)%nat.
Proof.
  rewrite build_ready_fst. revert old.
  induction new as [|n new IH]; intros old; [simpl; lia|].
  rewrite fmap_cons. cbn [foldl count_occ].
  rewrite IH, remove_old_node_count.
  destruct (Nat.eq_dec (node_task n) t), (decide (node_task n = t));
    try congruence; lia.
Qed.

(** The condition under which [build_ready] queues a node. *)
Definition is_runnable (s : TaskGraphRunner) (n : Node) : Prop :=
  node_dependencies n = 0 ∧ finished_or_running s (node_task n) = false.

#[global] Instance is_runnable_dec s n : Decision (is_runnable s n).
Proof. unfold is_runnable. apply _. Defined.

Definition to_PrioritizedTask (n : Node) : PrioritizedTask :=
  mkPrioritizedTask (node_task n) (node_priority n).

Lemma build_ready_snd s new old ready :
  (build_ready s new old ready).2 =
  ready ++ (to_PrioritizedTask <$> filter (is_runnable s) new).
Proof.
  revert old ready. induction new as [|n new IH]; intros old ready; simpl.
  - by rewrite app_nil_r.
  - rewrite filter_cons. destruct (decide (is_runnable s n)) as [[Hz Hf]|Hnot].
    + rewrite Hz, Hf. change (negb (0 =? 0)) with false. cbv iota.
      rewrite IH, fmap_cons. by rewrite <- app_assoc.
    + destruct (Z.eqb_spec (node_dependencies n) 0) as [Hz|Hz]; simpl;
        [|apply IH].
      destruct (finished_or_running s (node_task n)) eqn:Hf; [apply IH|].
      by destruct Hnot.
Qed.

(** ** The discount of completed tasks *)

(** [k] decrements of [node.dependencies]. *)
Definition dec_node (k : nat) (n : Node) : Node :=
  mkNode (node_task n) (node_priority n) (Nat.iter k udec (node_dependencies n)).

(** The number of edges from task [t] whose dependent has its node at
    position [i] of [ns]. *)
Definition dependents_of (es : list Edge) (ns : list Node) (t : Task)
    (i : nat) : nat :=
  length (filter (λ e, edge_task e = t ∧
                       find_node (edge_dependent e) ns = Some i) es).

(** The number of pairs of an entry [T] of [completed] and an edge from [T]
    whose dependent has its node at position [i] of the graph. *)
Definition discount_count (completed : list Task) (g : TaskGraph) (i : nat)
    : nat :=
  sum_list ((λ t, dependents_of (edges g) (nodes g) t i) <$> completed).

Lemma find_node_tasks t (ns ns' : list Node) :
  node_task <$> ns = node_task <$> ns' → find_node t ns = find_node t ns'.
Proof.
  revert ns'. induction ns as [|n ns IH]; intros [|n' ns']; simpl; try done.
  intros [= Hn Hns]. rewrite Hn. by rewrite (IH ns' Hns).
Qed.

Lemma dec_node_tasks (k : nat → nat) (ns : list Node) :
  node_task <$> imap (λ i n, dec_node (k i) n) ns = node_task <$> ns.
Proof.
  revert k. induction ns as [|n ns IH]; intros k; simpl; [done|].
  f_equal. apply (IH (k ∘ S)).
Qed.

Lemma decrement_dependencies_imap j (ns : list Node) :
  decrement_dependencies j ns =
  imap (λ i n, dec_node (if decide (i = j) then 1 else 0) n) ns.
Proof.
  apply list_eq. intros i. unfold decrement_dependencies.
  rewrite list_lookup_imap. destruct (decide (i = j)) as [->|Hne].
  - rewrite list_lookup_alter_eq. by destruct (ns !! j).
  - rewrite list_lookup_alter_ne by done.
    destruct (ns !! i) as [[]|]; done.
Qed.

Lemma dec_node_dec_node k k' n : dec_node k (dec_node k' n) = dec_node (k + k') n.
Proof. unfold dec_node. simpl. by rewrite Nat.iter_add. Qed.

Lemma imap_dec_node_compose (k k' : nat → nat) (ns : list Node) :
  imap (λ i n, dec_node (k i) n) (imap (λ i n, dec_node (k' i) n) ns) =
  imap (λ i n, dec_node (k i + k' i) n) ns.
Proof.
  apply list_eq. intros i. rewrite !list_lookup_imap.
  destruct (ns !! i); simpl; [|done]. by rewrite dec_node_dec_node.
Qed.

Lemma imap_dec_node_ext (k k' : nat → nat) (ns : list Node) :
  (∀ i, k i = k' i) →
  imap (λ i n, dec_node (k i) n) ns = imap (λ i n, dec_node (k' i) n) ns.
Proof. intros H. apply imap_ext. intros i n _. by rewrite H. Qed.

Lemma dependents_of_cons e es (ns : list Node) t i :
  dependents_of (e :: es) ns t i =
  ((if decide (edge_task e = t ∧ find_node (edge_dependent e) ns = Some i)
    then 1 else 0) + dependents_of es ns t i)%nat.
Proof. unfold dependents_of. rewrite filter_cons. by case_decide. Qed.

Lemma dependents_of_tasks es (ns ns' : list Node) t i :
  node_task <$> ns = node_task <$> ns' →
  dependents_of es ns t i = dependents_of es ns' t i.
Proof.
  intros Hns. unfold dependents_of. f_equal. apply list_filter_iff.
  intros e. by rewrite (find_node_tasks _ ns ns').
Qed.

(** What the iterator loop with the decrement as its body computes. *)
Lemma for_each_dependent_decrement t es (ns : list Node) :
  for_each_dependent id decrement_dependencies t es ns =
  imap (λ i n, dec_node (dependents_of es ns t i) n) ns.
Proof.
  revert ns. induction es as [|e es IH]; intros ns; simpl.
  - apply list_eq. intros i. rewrite list_lookup_imap.
    destruct (ns !! i) as [[]|]; done.
  - destruct (decide (edge_task e = t)) as [Ht|Ht].
    + unfold id at 1. destruct (find_node (edge_dependent e) ns) as [j|] eqn:Hj.
      * rewrite IH, decrement_dependencies_imap, imap_dec_node_compose.
        apply imap_dec_node_ext. intros i. rewrite dependents_of_cons, Hj.
        rewrite (dependents_of_tasks es _ ns)
          by apply (dec_node_tasks (λ i, if decide (i = j) then 1%nat else 0%nat)).
        destruct (decide (i = j)) as [->|Hne].
        -- rewrite decide_True by done. lia.
        -- rewrite decide_False by (intros [_ [=]]; done). lia.
      * rewrite IH. apply imap_dec_node_ext. intros i.
        rewrite dependents_of_cons, Hj.
        by rewrite decide_False by (intros [_ [=]]).
    + rewrite IH. apply imap_dec_node_ext. intros i.
      rewrite dependents_of_cons.
      by rewrite decide_False by (intros [? _]; done).
Qed.

(** The nodes of the new graph after the discount loop: every node has been
    decremented [discount_count] times. *)
Lemma discount_completed_spec completed g :
  discount_completed completed g =
  imap (λ i n, dec_node (discount_count completed g i) n) (nodes g).
Proof.
  unfold discount_completed, discount_count.
  assert (Hgen : ∀ (k : nat → nat),
    foldl (λ ns t, for_each_dependent id decrement_dependencies t (edges g) ns)
      (imap (λ i n, dec_node (k i) n) (nodes g)) completed =
    imap (λ i n, dec_node
            (sum_list ((λ t, dependents_of (edges g) (nodes g) t i) <$> completed)
             + k i) n) (nodes g)).
  { induction completed as [|t completed IH]; intros k; [done|].
    cbn [foldl].
    rewrite for_each_dependent_decrement, imap_dec_node_compose, IH.
    apply imap_dec_node_ext. intros i.
    rewrite (dependents_of_tasks _ _ (nodes g)) by apply dec_node_tasks.
    rewrite fmap_cons. simpl. lia. }
  specialize (Hgen (λ _, 0%nat)).
  rewrite (imap_dec_node_ext _ (λ i, (sum_list ((λ t, dependents_of (edges g) (nodes g) t i) <$> completed) + 0)%nat))
    by (intros i; lia).
  rewrite <- Hgen. f_equal. apply list_eq. intros i. rewrite list_lookup_imap.
  destruct (nodes g !! i) as [[]|]; done.
Qed.

Lemma discount_completed_tasks completed g :
  node_task <$> discount_completed completed g = node_task <$> nodes g.
Proof. rewrite discount_completed_spec. apply dec_node_tasks. Qed.

(** ** SetTaskGraph *)

Section SetTaskGraph_facts.
Context `{HA : HeapAlgorithms}.

Lemma SetTaskGraph_lookup token g s :
  namespaces_ (SetTaskGraph token g s).1 !! token =
  Some (SetTaskGraph_namespace s
          (default new_TaskNamespace (namespaces_ s !! token)) g).
Proof. simpl. apply lookup_insert_eq. Qed.

Lemma SetTaskGraph_lookup_ne token token' g s :
  token ≠ token' →
  namespaces_ (SetTaskGraph token g s).1 !! token' = namespaces_ s !! token'.
Proof.
  intros Hne. simpl. by rewrite lookup_insert_ne, lookup_delete_ne.
Qed.

Lemma SetTaskGraph_namespace_graph s ns g :
  graph (SetTaskGraph_namespace s ns g) =
  mkTaskGraph (discount_completed (completed_tasks ns) g) (edges g).
Proof. unfold SetTaskGraph_namespace. by destruct (build_ready _ _ _ _). Qed.

Lemma SetTaskGraph_namespace_ready s ns g :
  ready_to_run_tasks (SetTaskGraph_namespace s ns g) =
  make_heap CompareTaskPriority
    (to_PrioritizedTask <$>
       filter (is_runnable s) (discount_completed (completed_tasks ns) g)).
Proof.
  unfold SetTaskGraph_namespace.
  pose proof (build_ready_snd s (discount_completed (completed_tasks ns) g)
                (nodes (graph ns)) []) as H.
  destruct (build_ready _ _ _ _) as [canceled ready]. simpl in *. by subst.
Qed.

Lemma SetTaskGraph_namespace_completed s ns g :
  completed_tasks (SetTaskGraph_namespace s ns g) =
  completed_tasks ns ++
  canceled_tasks s
    (build_ready s (discount_completed (completed_tasks ns) g)
       (nodes (graph ns)) []).1.
Proof. unfold SetTaskGraph_namespace. by destruct (build_ready _ _ _ _). Qed.

Lemma SetTaskGraph_namespace_num_running s ns g :
  num_running_tasks (SetTaskGraph_namespace s ns g) = num_running_tasks ns.
Proof. unfold SetTaskGraph_namespace. by destruct (build_ready _ _ _ _). Qed.

(** C4: when [SetTaskGraph] returns, the ready queue of the namespace holds
    one entry [{task, priority}] for each node of the stored graph (the
    submitted graph after the discount) whose dependency count is zero and
    whose task has neither finished running nor occupies a slot of
    [running_tasks_], it holds nothing else, and it is a heap for
    [CompareTaskPriority]. *)
Theorem SetTaskGraph_ready_to_run_tasks token g s :
  ∃ ns', namespaces_ (SetTaskGraph token g s).1 !! token = Some ns' ∧
    ready_to_run_tasks ns' ≡ₚ
      to_PrioritizedTask <$>
        filter (is_runnable (SetTaskGraph token g s).1) (nodes (graph ns')) ∧
    is_heap CompareTaskPriority (ready_to_run_tasks ns').
Proof.
  eexists. split; [apply SetTaskGraph_lookup|].
  rewrite SetTaskGraph_namespace_ready, SetTaskGraph_namespace_graph.
  split; [|by apply make_heap_is_heap].
  by rewrite make_heap_perm.
Qed.

(** C1: [SetTaskGraph] appends to [completed_tasks] every task that has a node
    in the previous graph of the namespace and none in the new graph, has not
    finished running and occupies no slot of [running_tasks_]; the [did_run_]
    flags are those before the call, so the flag of such a task stays false;
    and no task that has finished running or is running is appended. *)
Theorem SetTaskGraph_cancels token g s ns :
  namespaces_ s !! token = Some ns →
  ∃ ns' appended,
    namespaces_ (SetTaskGraph token g s).1 !! token = Some ns' ∧
    completed_tasks ns' = completed_tasks ns ++ appended ∧
    did_run_ (SetTaskGraph token g s).1 = did_run_ s ∧
    (∀ t, t ∈ node_task <$> nodes (graph ns) → t ∉ node_task <$> nodes g →
          HasFinishedRunning (did_run_ s) t = false →
          is_running (running_tasks_ s) t = false →
          t ∈ appended ∧ t ∉ did_run_ (SetTaskGraph token g s).1) ∧
    (∀ t, HasFinishedRunning (did_run_ s) t = true ∨
          is_running (running_tasks_ s) t = true → t ∉ appended).
Proof.
  intros Hns. eexists _, _. split; [apply SetTaskGraph_lookup|].
  rewrite Hns. simpl default.
  split; [apply SetTaskGraph_namespace_completed|].
  split; [done|]. split.
  - intros t Hold Hnew Hfin Hrun. split.
    + unfold canceled_tasks. apply list_elem_of_filter. split.
      { unfold finished_or_running. by rewrite Hfin, Hrun. }
      apply list_elem_of_In, (count_occ_In Nat.eq_dec).
      rewrite build_ready_fst_count, discount_completed_tasks.
      apply list_elem_of_In, (count_occ_In Nat.eq_dec) in Hold.
      rewrite list_elem_of_In, (count_occ_not_In Nat.eq_dec) in Hnew.
      lia.
    + simpl. unfold HasFinishedRunning in Hfin.
      by apply bool_decide_eq_false in Hfin.
  - intros t Ht Hin. unfold canceled_tasks in Hin.
    apply list_elem_of_filter in Hin as [Hf _].
    unfold finished_or_running in Hf. apply orb_false_iff in Hf as [? ?].
    destruct Ht; congruence.
Qed.

End SetTaskGraph_facts.

(** ** Counting the decrements of a node *)

Lemma find_node_NoDup (ns : list Node) i n :
  NoDup (node_task <$> ns) → ns !! i = Some n →
  find_node (node_task n) ns = Some i.
Proof.
  intros Hnd Hi.
  destruct (find_node (node_task n) ns) as [j|] eqn:Hj.
  - destruct (find_node_Some _ _ _ Hj) as (m & Hm & Ht & _).
    f_equal. eapply (NoDup_lookup _ j i (node_task n) Hnd).
    + by rewrite list_lookup_fmap, Hm, <- Ht.
    + by rewrite list_lookup_fmap, Hi.
  - apply find_node_None in Hj. destruct Hj.
    apply list_elem_of_fmap. exists n. split; [done|].
    by eapply list_elem_of_lookup_2.
Qed.

Lemma iter_udec (k : nat) (x : Z) :
  Z.of_nat k ≤ x < UINT_MOD → Nat.iter k udec x = x - Z.of_nat k.
Proof.
  induction k as [|k IH]; intros Hx; simpl; [lia|].
  rewrite IH by lia. unfold udec. rewrite Z.mod_small; lia.
Qed.

Section Counting.
Context (Q : Edge → Prop) `{∀ e, Decision (Q e)}.

Definition pairs_count (c : list Task) (es : list Edge) : nat :=
  sum_list ((λ t, length (filter (λ e, edge_task e = t ∧ Q e) es)) <$> c).

Lemma pairs_count_nil c : pairs_count c [] = 0%nat.
Proof. unfold pairs_count. induction c; simpl; [done|]. done. Qed.

Lemma pairs_count_cons c e es :
  pairs_count c (e :: es) =
  ((if decide (Q e) then count_occ Nat.eq_dec c (edge_task e) else 0)
   + pairs_count c es)%nat.
Proof.
  unfold pairs_count. induction c as [|t c IH].
  - simpl. by case_decide.
  - rewrite !fmap_cons. cbn [sum_list_with count_occ]. rewrite IH.
    rewrite filter_cons.
    destruct (decide (Q e)) as [Hq|Hq].
    + destruct (Nat.eq_dec t (edge_task e)) as [->|Hne].
      * rewrite decide_True by done. simpl. unfold id. lia.
      * rewrite decide_False by (intros [? _]; congruence). unfold id. lia.
    + rewrite decide_False by (intros [_ ?]; done). unfold id. lia.
Qed.

(** When the source of every edge that satisfies [Q] is listed once in [c],
    the pairs of an entry of [c] and an edge from it that satisfies [Q] are
    as many as the edges that satisfy [Q]. *)
Lemma pairs_count_once c es :
  (∀ e, e ∈ es → Q e → count_occ Nat.eq_dec c (edge_task e) = 1%nat) →
  pairs_count c es = length (filter Q es).
Proof.
  induction es as [|e es IH]; intros Hc.
  - apply pairs_count_nil.
  - rewrite pairs_count_cons, filter_cons.
    rewrite IH by (intros e' He'; apply Hc; by right).
    destruct (decide (Q e)) as [Hq|Hq]; [|done].
    rewrite (Hc e) by (done || by left). done.
Qed.

End Counting.

Section Discount.
Context `{HA : HeapAlgorithms}.

(** C3 (amended): in the graph that [SetTaskGraph] stores, and from which it
    builds the ready queue, the dependency count of every node has been
    decremented once for each pair of an entry [T] of the uncollected
    [completed_tasks] and an edge from [T] to the node. Consequently a node of
    a well-formed graph, all of whose incoming edges come from tasks listed
    once in [completed_tasks], is in the ready queue on return, provided its
    own task has neither finished running nor is running on a worker. *)
Theorem SetTaskGraph_discount token g s :
  ∃ ns', namespaces_ (SetTaskGraph token g s).1 !! token = Some ns' ∧
    (∀ i n, nodes g !! i = Some n →
       nodes (graph ns') !! i =
       Some (dec_node
               (discount_count
                  (completed_tasks
                     (default new_TaskNamespace (namespaces_ s !! token))) g i)
               n)) ∧
    (∀ n, well_formed_graph g → n ∈ nodes g →
       (∀ e, e ∈ edges g → edge_dependent e = node_task n →
          count_occ Nat.eq_dec
            (completed_tasks
               (default new_TaskNamespace (namespaces_ s !! token)))
            (edge_task e) = 1%nat) →
       HasFinishedRunning (did_run_ s) (node_task n) = false →
       is_running (running_tasks_ s) (node_task n) = false →
       to_PrioritizedTask n ∈ ready_to_run_tasks ns').
Proof.
  eexists. split; [apply SetTaskGraph_lookup|].
  set (ns := default new_TaskNamespace (namespaces_ s !! token)).
  rewrite SetTaskGraph_namespace_graph, SetTaskGraph_namespace_ready.
  rewrite discount_completed_spec. cbn [nodes]. split.
  - intros i n Hi. by rewrite list_lookup_imap, Hi.
  - intros n Hwf Hn Hc Hfin Hrun.
    apply list_elem_of_lookup in Hn as [i Hi].
    rewrite make_heap_perm by done.
    apply list_elem_of_fmap.
    exists (dec_node (discount_count (completed_tasks ns) g i) n).
    assert (Hzero : node_dependencies
              (dec_node (discount_count (completed_tasks ns) g i) n) = 0).
    { unfold discount_count.
      change (sum_list _) with
        (pairs_count (λ e, find_node (edge_dependent e) (nodes g) = Some i)
           (completed_tasks ns) (edges g)).
      assert (Hiff : ∀ e, find_node (edge_dependent e) (nodes g) = Some i ↔
                          edge_dependent e = node_task n).
      { intros e. split.
        - intros Hf. destruct (find_node_Some _ _ _ Hf) as (m & Hm & Ht & _).
          congruence.
        - intros ->. apply find_node_NoDup; [apply Hwf|done]. }
      rewrite pairs_count_once.
      2: { intros e He Hq. apply Hc; [done|by apply Hiff]. }
      rewrite (list_filter_iff _ (λ e, edge_dependent e = node_task n))
        by apply Hiff.
      fold (incoming (edges g) (node_task n)). simpl.
      pose proof (wf_dependencies g Hwf n
                    (list_elem_of_lookup_2 _ _ _ Hi)) as Hd.
      pose proof (wf_bound g Hwf) as Hb.
      assert (incoming (edges g) (node_task n) ≤ length (edges g))%nat
        by apply length_filter.
      rewrite iter_udec by lia. lia. }
    split; [done|].
    apply list_elem_of_filter. split.
    + split; [done|]. unfold finished_or_running. simpl.
      by rewrite Hfin, Hrun.
    + apply list_elem_of_lookup. exists i. by rewrite list_lookup_imap, Hi.
Qed.

End Discount.

(** ** CollectCompletedTasks and WaitForTasksToFinishRunning *)

Lemma HasFinishedRunningTasksInNamespace_spec ns :
  HasFinishedRunningTasksInNamespace ns = true ↔
  ready_to_run_tasks ns = [] ∧ num_running_tasks ns = 0 ∧
  nodes (graph ns) = [].
Proof.
  unfold HasFinishedRunningTasksInNamespace.
  rewrite !andb_true_iff, !bool_decide_eq_true, Z.eqb_eq. tauto.
Qed.

Section Collect.
Context `{HA : HeapAlgorithms}.

(** C6: without a namespace for the token the call changes neither the state
    nor [out]. Otherwise [out] receives the completed tasks of the namespace
    and the namespace receives the former contents of [out] (empty, as the
    caller must pass it); the namespace is erased from the map exactly when
    it has then finished running tasks, that is when its ready queue is
    empty, [num_running_tasks] is 0 and its graph has no nodes; a namespace
    that stays keeps its graph, ready queue and counter; other namespaces
    are not touched. *)
Theorem CollectCompletedTasks_spec token out s :
  (namespaces_ s !! token = None →
     CollectCompletedTasks token out s = (s, out)) ∧
  (∀ ns, namespaces_ s !! token = Some ns →
     (CollectCompletedTasks token out s).2 = completed_tasks ns ∧
     (namespaces_ (CollectCompletedTasks token out s).1 !! token = None ↔
        ready_to_run_tasks ns = [] ∧ num_running_tasks ns = 0 ∧
        nodes (graph ns) = []) ∧
     (namespaces_ (CollectCompletedTasks token out s).1 !! token = None ↔
        HasFinishedRunningTasksInNamespace
          (mkTaskNamespace (graph ns) (ready_to_run_tasks ns) out
             (num_running_tasks ns)) = true) ∧
     (∀ ns', namespaces_ (CollectCompletedTasks token out s).1 !! token
               = Some ns' →
        ns' = mkTaskNamespace (graph ns) (ready_to_run_tasks ns) out
                (num_running_tasks ns)) ∧
     (out = [] →
        ∀ ns', namespaces_ (CollectCompletedTasks token out s).1 !! token
                 = Some ns' → completed_tasks ns' = []) ∧
     (∀ token', token' ≠ token →
        namespaces_ (CollectCompletedTasks token out s).1 !! token' =
        namespaces_ s !! token')).
Proof.
  split.
  - intros Hnone. unfold CollectCompletedTasks. by rewrite Hnone.
  - intros ns Hns. unfold CollectCompletedTasks. rewrite Hns.
    set (ns1 := mkTaskNamespace _ _ out _).
    pose proof (HasFinishedRunningTasksInNamespace_spec ns1) as Hspec.
    destruct (HasFinishedRunningTasksInNamespace ns1) eqn:Hfin; simpl.
    + rewrite lookup_delete_eq. split_and!; try done.
      * split; [intros _; by apply Hspec|done].
      * intros token' Hne. by rewrite lookup_delete_ne.
    + rewrite lookup_insert_eq. split_and!; try done.
      * split; [done|]. intros H. apply Hspec in H. done.
      * by intros ns' [= <-].
      * by intros -> ns' [= <-].
      * intros token' Hne. by rewrite lookup_insert_ne.
Qed.

End Collect.

Lemma wait_loop_returned token s wakeups s' :
  wait_loop token s wakeups = WaitReturned s' →
  s' ∈ s :: wakeups ∧
  ∃ ns, namespaces_ s' !! token = Some ns ∧
        HasFinishedRunningTasksInNamespace ns = true.
Proof.
  revert s. induction wakeups as [|w wakeups IH]; intros s; simpl.
  - destruct (namespaces_ s !! token) as [ns|] eqn:Hns; [|done].
    destruct (HasFinishedRunningTasksInNamespace ns) eqn:Hfin; [|done].
    intros [= <-]. split; [by left|eauto].
  - destruct (namespaces_ s !! token) as [ns|] eqn:Hns; [|done].
    destruct (HasFinishedRunningTasksInNamespace ns) eqn:Hfin; simpl.
    + intros [= <-]. split; [by left|eauto].
    + intros H. apply IH in H as [Hin H]. split; [by right|done].
Qed.

(** The loop leaves [Wait] for good at the first wake-up at which the
    namespace has finished running tasks. *)
Lemma wait_loop_progress token s before s' after :
  Forall (λ w, ∃ ns, namespaces_ w !! token = Some ns ∧
                     HasFinishedRunningTasksInNamespace ns = false)
         (s :: before) →
  (∃ ns, namespaces_ s' !! token = Some ns ∧
         HasFinishedRunningTasksInNamespace ns = true) →
  wait_loop token s (before ++ s' :: after) = WaitReturned s'.
Proof.
  revert s. induction before as [|w before IH]; intros s Hall [ns' [Hns' Hfin']].
  - apply Forall_cons in Hall as [(ns & Hns & Hfin) _]. simpl.
    rewrite Hns, Hfin. simpl. destruct after; simpl; by rewrite Hns', Hfin'.
  - apply Forall_cons in Hall as [(ns & Hns & Hfin) Hall].
    cbn [app wait_loop]. rewrite Hns, Hfin. simpl. apply IH; eauto.
Qed.

(** C7: a call of [WaitForTasksToFinishRunning] returns at once, in the state
    it was called in, when there is no namespace for the token; and when it
    returns otherwise, the namespace of the token has finished running tasks
    in the state it returns in: the ready queue is empty, [num_running_tasks]
    is 0 and the graph has no nodes. The call does return: it leaves the loop
    at the first state, among the state of the call and the states at the
    wake-ups, in which the namespace has finished running tasks. *)
Theorem WaitForTasksToFinishRunning_returns token s wakeups :
  (namespaces_ s !! token = None →
     WaitForTasksToFinishRunning token s wakeups = WaitReturned s) ∧
  (∀ s', WaitForTasksToFinishRunning token s wakeups = WaitReturned s' →
     (namespaces_ s !! token = None ∧ s' = s) ∨
     (∃ ns, namespaces_ s' !! token = Some ns ∧
            HasFinishedRunningTasksInNamespace ns = true ∧
            ready_to_run_tasks ns = [] ∧ num_running_tasks ns = 0 ∧
            nodes (graph ns) = [])) ∧
  (∀ before s' after, s :: wakeups = before ++ s' :: after →
     Forall (λ w, ∃ ns, namespaces_ w !! token = Some ns ∧
                        HasFinishedRunningTasksInNamespace ns = false) before →
     (∃ ns, namespaces_ s' !! token = Some ns ∧
            HasFinishedRunningTasksInNamespace ns = true) →
     WaitForTasksToFinishRunning token s wakeups = WaitReturned s').
Proof.
  unfold WaitForTasksToFinishRunning. split_and!.
  - by intros ->.
  - intros s'. destruct (namespaces_ s !! token) as [ns0|] eqn:Hns0.
    + intros H. right. apply wait_loop_returned in H as [_ (ns & Hns & Hfin)].
      exists ns. split_and!; [done..| | |];
        by apply HasFinishedRunningTasksInNamespace_spec in Hfin as (? & ? & ?).
    + intros [= <-]. by left.
  - intros before s' after Heq Hall Hfin.
    destruct before as [|s0 before]; simpl in Heq; injection Heq as <- ->.
    + destruct Hfin as (ns & Hns & Hfin). rewrite Hns.
      destruct after; simpl; by rewrite Hns, Hfin.
    + pose proof Hall as Hall'.
      apply Forall_cons in Hall' as [(ns & Hns & _) _]. rewrite Hns.
      by apply wait_loop_progress.
Qed.

(** ** The ready queues *)

(** The invariant of the two levels of ready queues: a namespace is in
    [ready_to_run_namespaces_] exactly when it has a ready task, it is there
    once, and both levels are heaps for their comparators. *)
Record ready_invariant (s : TaskGraphRunner) : Prop := {
  inv_NoDup : NoDup (ready_to_run_namespaces_ s);
  inv_ready : ∀ id, id ∈ ready_to_run_namespaces_ s ↔
    ∃ ns, namespaces_ s !! id = Some ns ∧ ready_to_run_tasks ns ≠ [];
  inv_tasks_heap : ∀ id ns, namespaces_ s !! id = Some ns →
    is_heap CompareTaskPriority (ready_to_run_tasks ns);
  inv_namespaces_heap :
    is_heap (CompareTaskNamespacePriority (namespaces_ s))
            (ready_to_run_namespaces_ s)
}.

(** The ready queue of the namespace [id], if there is such a namespace. *)
Definition ready_of (m : gmap nat TaskNamespace) (id : nat)
    : option (list PrioritizedTask) :=
  ready_to_run_tasks <$> m !! id.

Lemma head_priority_ready_of m m' id :
  ready_of m id = ready_of m' id → head_priority m id = head_priority m' id.
Proof.
  unfold ready_of, head_priority.
  destruct (m !! id), (m' !! id); simpl; intros [=]; [|done].
  by match goal with H : _ = _ |- _ => rewrite H end.
Qed.

Lemma is_heap_namespaces_ext m m' (l : list nat) :
  (∀ id, id ∈ l → ready_of m id = ready_of m' id) →
  is_heap (CompareTaskNamespacePriority m) l →
  is_heap (CompareTaskNamespacePriority m') l.
Proof.
  intros Heq. apply is_heap_ext. intros x y Hx Hy.
  unfold CompareTaskNamespacePriority.
  by rewrite (head_priority_ready_of m m' x), (head_priority_ready_of m m' y)
    by auto.
Qed.

Lemma elem_of_namespaces_with_ready_tasks m id :
  id ∈ namespaces_with_ready_tasks m ↔
  ∃ ns, m !! id = Some ns ∧ ready_to_run_tasks ns ≠ [].
Proof.
  unfold namespaces_with_ready_tasks. rewrite list_elem_of_fmap. split.
  - intros ([k ns] & -> & Hin). apply list_elem_of_filter in Hin as [Hr Hin].
    apply elem_of_map_to_list in Hin. eauto.
  - intros (ns & Hns & Hr). exists (id, ns). split; [done|].
    apply list_elem_of_filter. split; [done|]. by apply elem_of_map_to_list.
Qed.

Lemma NoDup_namespaces_with_ready_tasks m :
  NoDup (namespaces_with_ready_tasks m).
Proof.
  unfold namespaces_with_ready_tasks.
  eapply sublist_NoDup; [apply (NoDup_fst_map_to_list m)|].
  apply fmap_sublist, sublist_filter.
Qed.

Lemma pop_back_snoc {A : Type} (l : list A) x : pop_back (l ++ [x]) = Some (l, x).
Proof.
  unfold pop_back. rewrite last_snoc, length_app. simpl.
  replace (length l + 1 - 1)%nat with (length l) by lia.
  by rewrite take_app_length.
Qed.

Lemma for_each_dependent_ind {St : Type} (P : St → Prop)
    (get_nodes : St → list Node) (body : nat → St → St) task es s :
  (∀ i s, P s → P (body i s)) → P s →
  P (for_each_dependent get_nodes body task es s).
Proof.
  intros Hbody. revert s. induction es as [|e es IH]; intros s Hs; simpl; [done|].
  destruct (decide _); [|by apply IH].
  destruct (find_node _ _); apply IH; auto.
Qed.

Section Invariant.
Context `{HA : HeapAlgorithms}.

Lemma ready_invariant_new num_threads :
  ready_invariant (TaskGraphRunner_new num_threads).
Proof.
  split; simpl.
  - constructor.
  - intros id. split; [by intros ?%elem_of_nil|].
    intros (ns & Hns & _). by rewrite lookup_empty in Hns.
  - intros id ns Hns. by rewrite lookup_empty in Hns.
  - apply is_heap_nil.
Qed.

Lemma ready_invariant_SetTaskGraph token g s :
  ready_invariant s → ready_invariant (SetTaskGraph token g s).1.
Proof.
  intros Hinv. split; simpl; unfold rebuild_ready_to_run_namespaces.
  - rewrite make_heap_perm by done. apply NoDup_namespaces_with_ready_tasks.
  - intros id. rewrite make_heap_perm by done.
    apply elem_of_namespaces_with_ready_tasks.
  - intros id ns. destruct (decide (id = token)) as [->|Hne].
    + rewrite lookup_insert_eq. intros [= <-].
      rewrite SetTaskGraph_namespace_ready. by apply make_heap_is_heap.
    + rewrite lookup_insert_ne, lookup_delete_ne by done.
      apply (inv_tasks_heap s Hinv).
  - by apply make_heap_is_heap.
Qed.

Lemma ready_invariant_GetNamespaceToken s :
  ready_invariant s → ready_invariant (GetNamespaceToken s).1.
Proof. intros [? ? ? ?]. by split. Qed.

Lemma ready_invariant_CollectCompletedTasks token out s :
  ready_invariant s → ready_invariant (CollectCompletedTasks token out s).1.
Proof.
  intros Hinv. unfold CollectCompletedTasks.
  destruct (namespaces_ s !! token) as [ns|] eqn:Hns; [|done].
  set (ns1 := mkTaskNamespace _ _ out _).
  destruct (HasFinishedRunningTasksInNamespace ns1) eqn:Hfin; simpl.
  - apply HasFinishedRunningTasksInNamespace_spec in Hfin as (Hr & _ & _).
    subst ns1. simpl in Hr.
    assert (Hnotin : token ∉ ready_to_run_namespaces_ s).
    { rewrite (inv_ready s Hinv). intros (ns' & Hns' & Hr'). congruence. }
    split; simpl.
    + apply (inv_NoDup s Hinv).
    + intros id. rewrite (inv_ready s Hinv).
      destruct (decide (id = token)) as [->|Hne].
      * rewrite lookup_delete_eq, Hns. split; intros (ns' & [=] & ?); congruence.
      * by rewrite lookup_delete_ne.
    + intros id ns'. destruct (decide (id = token)) as [->|Hne].
      * by rewrite lookup_delete_eq.
      * rewrite lookup_delete_ne by done. apply (inv_tasks_heap s Hinv).
    + eapply is_heap_namespaces_ext; [|apply (inv_namespaces_heap s Hinv)].
      intros id Hid. unfold ready_of. rewrite lookup_delete_ne; [done|].
      intros ->. done.
  - split; simpl.
    + apply (inv_NoDup s Hinv).
    + intros id. rewrite (inv_ready s Hinv).
      destruct (decide (id = token)) as [->|Hne].
      * rewrite lookup_insert_eq, Hns.
        split; intros (ns' & [= <-] & ?); eauto.
      * by rewrite lookup_insert_ne.
    + intros id ns'. destruct (decide (id = token)) as [->|Hne].
      * rewrite lookup_insert_eq. intros [= <-]. simpl.
        by apply (inv_tasks_heap s Hinv token).
      * rewrite lookup_insert_ne by done. apply (inv_tasks_heap s Hinv).
    + eapply is_heap_namespaces_ext; [|apply (inv_namespaces_heap s Hinv)].
      intros id _. unfold ready_of.
      destruct (decide (id = token)) as [->|Hne].
      * by rewrite lookup_insert_eq, Hns.
      * by rewrite lookup_insert_ne.
Qed.

End Invariant.

Section Dispatch.
Context `{HA : HeapAlgorithms}.

(** What [RunTaskWithLockAcquired] does before it releases the lock, in a
    state that satisfies the invariant: the namespace taken is the first of
    [ready_to_run_namespaces_] and the task taken is the first of its ready
    queue. *)
Lemma RunTaskWithLockAcquired_begin_spec thread_index s :
  ready_invariant s → ready_to_run_namespaces_ s ≠ [] →
  ∃ id l ns pt r l' r',
    ready_to_run_namespaces_ s = id :: l ∧
    namespaces_ s !! id = Some ns ∧
    ready_to_run_tasks ns = pt :: r ∧
    l' ≡ₚ l ∧ is_heap (CompareTaskNamespacePriority (namespaces_ s)) l' ∧
    r' ≡ₚ r ∧ is_heap CompareTaskPriority r' ∧
    RunTaskWithLockAcquired_begin thread_index s =
    Some (mkTaskGraphRunner
            (<[id := mkTaskNamespace (graph ns) r' (completed_tasks ns)
                       (uinc (num_running_tasks ns))]> (namespaces_ s))
            (if bool_decide (r' ≠ [])
             then push_heap
                    (CompareTaskNamespacePriority
                       (<[id := mkTaskNamespace (graph ns) r'
                                  (completed_tasks ns)
                                  (num_running_tasks ns)]> (namespaces_ s)))
                    (l' ++ [id])
             else l')
            (<[thread_index := Some (pt_task pt)]> (running_tasks_ s))
            (did_run_ s) (next_namespace_id_ s),
          id, pt_task pt).
Proof.
  intros Hinv Hne.
  destruct (ready_to_run_namespaces_ s) as [|id l] eqn:Hrrn; [done|].
  pose proof (inv_namespaces_heap s Hinv) as Hheap. rewrite Hrrn in Hheap.
  destruct (pop_heap_spec _ _ id l (CompareTaskNamespacePriority_swo _) Hheap)
    as (l' & Hpop & Hl' & Hheap').
  assert (Hin : id ∈ ready_to_run_namespaces_ s) by (rewrite Hrrn; by left).
  apply (inv_ready s Hinv) in Hin as (ns & Hns & Hready).
  destruct (ready_to_run_tasks ns) as [|pt r] eqn:Hr; [done|].
  pose proof (inv_tasks_heap s Hinv id ns Hns) as Htheap. rewrite Hr in Htheap.
  destruct (pop_heap_spec _ _ pt r CompareTaskPriority_swo Htheap)
    as (r' & Hpopt & Hr' & Htheap').
  exists id, l, ns, pt, r, l', r'. split_and!; try done.
  unfold RunTaskWithLockAcquired_begin.
  rewrite Hrrn, Hpop, pop_back_snoc. simpl.
  rewrite Hns. simpl. rewrite Hr, Hpopt, pop_back_snoc. simpl. done.
Qed.

End Dispatch.

Section Dispatch_invariant.
Context `{HA : HeapAlgorithms}.

Lemma ready_invariant_begin thread_index s s' id task :
  ready_invariant s →
  RunTaskWithLockAcquired_begin thread_index s = Some (s', id, task) →
  ready_invariant s'.
Proof.
  intros Hinv Hbegin.
  assert (Hne : ready_to_run_namespaces_ s ≠ []).
  { intros Hnil. unfold RunTaskWithLockAcquired_begin in Hbegin.
    by rewrite Hnil in Hbegin. }
  destruct (RunTaskWithLockAcquired_begin_spec thread_index s Hinv Hne)
    as (id0 & l & ns & pt & r & l' & r' & Hrrn & Hns & Hr & Hl' & Hheap'
        & Hr' & Htheap' & Heq).
  rewrite Heq in Hbegin. injection Hbegin as <- <- <-.
  pose proof (inv_NoDup s Hinv) as Hnd. rewrite Hrrn in Hnd.
  apply NoDup_cons in Hnd as [Hnotin Hnd].
  set (m1 := <[id0 := mkTaskNamespace (graph ns) r' (completed_tasks ns)
                        (num_running_tasks ns)]> (namespaces_ s)).
  set (m2 := <[id0 := mkTaskNamespace (graph ns) r' (completed_tasks ns)
                        (uinc (num_running_tasks ns))]> (namespaces_ s)).
  assert (Hheap1 : is_heap (CompareTaskNamespacePriority m1) l').
  { eapply is_heap_namespaces_ext; [|exact Hheap'].
    intros id Hid. unfold ready_of, m1. rewrite lookup_insert_ne; [done|].
    intros ->. by rewrite Hl' in Hid. }
  assert (Hm12 : ∀ id, ready_of m1 id = ready_of m2 id).
  { intros id. unfold ready_of, m1, m2.
    destruct (decide (id = id0)) as [->|Hne'].
    - by rewrite !lookup_insert_eq.
    - by rewrite !lookup_insert_ne. }
  assert (Hmem : ∀ id, id ∈ l' ↔
            id ≠ id0 ∧ ∃ ns', namespaces_ s !! id = Some ns' ∧
                              ready_to_run_tasks ns' ≠ []).
  { intros id. rewrite Hl'. split.
    - intros Hid. split; [by intros ->|].
      apply (inv_ready s Hinv). rewrite Hrrn. by right.
    - intros [Hne' Hex]. apply (inv_ready s Hinv) in Hex.
      rewrite Hrrn in Hex. by apply elem_of_cons in Hex as [?|?]. }
  split; simpl; fold m1 m2.
  - case_bool_decide.
    + rewrite push_heap_perm by done.
      rewrite Permutation_app_comm. simpl. constructor; by rewrite Hl'.
    + by rewrite Hl'.
  - intros id.
    assert (Hlookup : (∃ ns', m2 !! id = Some ns' ∧ ready_to_run_tasks ns' ≠ [])
              ↔ (id = id0 ∧ r' ≠ []) ∨ id ∈ l').
    { rewrite Hmem. unfold m2. destruct (decide (id = id0)) as [->|Hne'].
      - rewrite lookup_insert_eq. split.
        + intros (ns' & [= <-] & Hr0). by left.
        + intros [[_ Hr0]|[? _]]; [eauto|done].
      - rewrite lookup_insert_ne by done. split.
        + intros Hex. by right.
        + intros [[? _]|[_ Hex]]; done. }
    rewrite Hlookup. case_bool_decide as Hr0.
    + rewrite push_heap_perm by done. rewrite elem_of_app, list_elem_of_singleton.
      tauto.
    + split; [by right|]. intros [[_ ?]|?]; [|done].
      destruct Hr0. done.
  - intros id ns'. unfold m2. destruct (decide (id = id0)) as [->|Hne'].
    + rewrite lookup_insert_eq. by intros [= <-].
    + rewrite lookup_insert_ne by done. apply (inv_tasks_heap s Hinv).
  - apply (is_heap_namespaces_ext m1 m2); [auto|].
    case_bool_decide; [|done].
    by apply push_heap_is_heap.
Qed.

End Dispatch_invariant.

Section FanOut_invariant.
Context `{HA : HeapAlgorithms}.
Context (s : TaskGraphRunner) (id : nat) (ns : TaskNamespace).

(** The invariant of the fan-out loop for the namespace [id], entered in
    the state [s] in which the namespace is [ns]. *)
Record fan_out_invariant (f : FanOut) : Prop := {
  fo_tasks_heap :
    is_heap CompareTaskPriority (ready_to_run_tasks (fo_namespace f));
  fo_NoDup : NoDup (fo_ready_to_run_namespaces f);
  fo_ready : ∀ id', id' ∈ fo_ready_to_run_namespaces f ↔
    (id' = id ∧ ready_to_run_tasks (fo_namespace f) ≠ []) ∨
    (id' ≠ id ∧ ∃ ns', namespaces_ s !! id' = Some ns' ∧
                       ready_to_run_tasks ns' ≠ []);
  fo_untouched : fo_has_heap_properties f = true →
    fo_ready_to_run_namespaces f = ready_to_run_namespaces_ s ∧
    ready_to_run_tasks (fo_namespace f) = ready_to_run_tasks ns
}.

Lemma fan_out_body_invariant i f :
  fan_out_invariant f → fan_out_invariant (fan_out_body id i f).
Proof.
  intros [Hheap Hnd Hready Hflag]. unfold fan_out_body.
  destruct (decrement_dependencies i (nodes (graph (fo_namespace f))) !! i)
    as [dn|]; [|by split].
  destruct (node_dependencies dn =? 0); [|by split].
  set (pt := mkPrioritizedTask (node_task dn) (node_priority dn)).
  assert (Hnonempty :
    push_heap CompareTaskPriority
      (ready_to_run_tasks (fo_namespace f) ++ [pt]) ≠ []).
  { intros Hnil.
    pose proof (push_heap_perm _ CompareTaskPriority _ pt
                  CompareTaskPriority_swo Hheap) as Hp.
    rewrite Hnil in Hp. apply Permutation_nil_l in Hp.
    by destruct (ready_to_run_tasks (fo_namespace f)). }
  split; simpl.
  - by apply push_heap_is_heap.
  - case_bool_decide as Hempty; [|done].
    rewrite Permutation_app_comm. simpl. constructor; [|done].
    rewrite Hready. intros [[_ ?]|[? _]]; done.
  - intros id'. case_bool_decide as Hempty.
    + rewrite elem_of_app, list_elem_of_singleton, Hready.
      destruct (decide (id' = id)); tauto.
    + rewrite Hready. tauto.
  - done.
Qed.

End FanOut_invariant.

Section Completion_invariant.
Context `{HA : HeapAlgorithms}.

Lemma ready_invariant_end thread_index id task s s' :
  ready_invariant s →
  RunTaskWithLockAcquired_end thread_index id task s = Some s' →
  ready_invariant s'.
Proof.
  intros Hinv. unfold RunTaskWithLockAcquired_end.
  destruct (namespaces_ s !! id) as [ns|] eqn:Hns; [|done]. simpl.
  set (ns1 := mkTaskNamespace _ _ _ (udec _)).
  set (f := for_each_dependent _ _ _ _ _).
  assert (Hf : fan_out_invariant s id ns f).
  { apply for_each_dependent_ind; [apply fan_out_body_invariant|].
    split; simpl.
    - by apply (inv_tasks_heap s Hinv id).
    - apply (inv_NoDup s Hinv).
    - intros id'. rewrite (inv_ready s Hinv).
      destruct (decide (id' = id)) as [->|Hne].
      + rewrite Hns. split.
        * intros (ns0 & [= <-] & ?). by left.
        * intros [[_ ?]|[? _]]; [eauto|done].
      + split; [by right|]. intros [[? _]|[_ ?]]; done.
    - done. }
  clearbody f. destruct Hf as [Hheap Hnd Hready Hflag].
  intros [= <-].
  set (m := <[id := mkTaskNamespace _ _ (_ ++ [task]) _]> (namespaces_ s)).
  set (m_heap := <[id := fo_namespace f]> (namespaces_ s)).
  assert (Hmm : ∀ id', ready_of m_heap id' = ready_of m id').
  { intros id'. unfold ready_of, m, m_heap.
    destruct (decide (id' = id)) as [->|Hne].
    - by rewrite !lookup_insert_eq.
    - by rewrite !lookup_insert_ne. }
  assert (Hiff : ∀ id', id' ∈ fo_ready_to_run_namespaces f ↔
            ∃ ns', m !! id' = Some ns' ∧ ready_to_run_tasks ns' ≠ []).
  { intros id'. rewrite Hready. unfold m.
    destruct (decide (id' = id)) as [->|Hne].
    - rewrite lookup_insert_eq. split.
      + intros [[_ ?]|[? _]]; [eauto|done].
      + intros (ns' & [= <-] & ?). by left.
    - rewrite lookup_insert_ne by done. split.
      + intros [[? _]|[_ ?]]; done.
      + intros ?. by right. }
  split; simpl; fold m m_heap.
  - destruct (fo_has_heap_properties f); [done|].
    by rewrite make_heap_perm.
  - intros id'. rewrite <- Hiff.
    destruct (fo_has_heap_properties f); [done|].
    by rewrite make_heap_perm.
  - intros id' ns'. unfold m. destruct (decide (id' = id)) as [->|Hne].
    + rewrite lookup_insert_eq. by intros [= <-].
    + rewrite lookup_insert_ne by done. apply (inv_tasks_heap s Hinv).
  - destruct (fo_has_heap_properties f).
    + destruct (Hflag eq_refl) as [-> Hsame].
      eapply is_heap_namespaces_ext; [|apply (inv_namespaces_heap s Hinv)].
      intros id' _. unfold ready_of, m.
      destruct (decide (id' = id)) as [->|Hne].
      * rewrite lookup_insert_eq, Hns. simpl. by rewrite Hsame.
      * by rewrite lookup_insert_ne.
    + apply (is_heap_namespaces_ext m_heap m); [auto|].
      by apply make_heap_is_heap.
Qed.

(** Every critical section of the scheduler keeps the invariant. *)
Lemma ready_invariant_step sys sys' :
  step sys sys' → ready_invariant (runner sys) → ready_invariant (runner sys').
Proof.
  destruct 1; simpl; intros Hinv.
  - by apply ready_invariant_GetNamespaceToken.
  - by apply ready_invariant_SetTaskGraph.
  - by apply ready_invariant_CollectCompletedTasks.
  - by eapply ready_invariant_begin.
  - by eapply ready_invariant_end.
Qed.

Lemma ready_invariant_reachable num_threads sys :
  reachable num_threads sys → ready_invariant (runner sys).
Proof.
  induction 1 as [|sys sys' _ IH Hstep].
  - apply ready_invariant_new.
  - by eapply ready_invariant_step.
Qed.

End Completion_invariant.

(** ** Dispatch by priority *)

Section Dispatch_priority.
Context `{HA : HeapAlgorithms}.

(** The first task of a heap of ready tasks has the lowest priority value. *)
Lemma ready_heap_top pt (r : list PrioritizedTask) pt' :
  is_heap CompareTaskPriority (pt :: r) → pt' ∈ pt :: r →
  pt_priority pt ≤ pt_priority pt'.
Proof.
  intros Hheap Hin.
  pose proof (is_heap_top _ pt r CompareTaskPriority_swo Hheap pt' Hin) as H.
  unfold CompareTaskPriority in H. rewrite Z.gtb_ltb, Z.ltb_ge in H. lia.
Qed.

(** The dispatch of a task, in a state that satisfies the invariant. *)
Lemma RunTaskWithLockAcquired_begin_min thread_index s :
  ready_invariant s → ready_to_run_namespaces_ s ≠ [] →
  ∃ s' id ns pt ns1,
    RunTaskWithLockAcquired_begin thread_index s = Some (s', id, pt_task pt) ∧
    namespaces_ s !! id = Some ns ∧
    id ∈ ready_to_run_namespaces_ s ∧
    head (ready_to_run_tasks ns) = Some pt ∧
    (∀ pt', pt' ∈ ready_to_run_tasks ns → pt_priority pt ≤ pt_priority pt') ∧
    (∀ id', id' ∈ ready_to_run_namespaces_ s →
       head_priority (namespaces_ s) id ≤ head_priority (namespaces_ s) id') ∧
    (∀ id' ns' pt', namespaces_ s !! id' = Some ns' →
       pt' ∈ ready_to_run_tasks ns' → pt_priority pt ≤ pt_priority pt') ∧
    namespaces_ s' !! id = Some ns1 ∧
    pt :: ready_to_run_tasks ns1 ≡ₚ ready_to_run_tasks ns ∧
    (id ∈ ready_to_run_namespaces_ s' ↔ ready_to_run_tasks ns1 ≠ []) ∧
    running_tasks_ s' = <[thread_index := Some (pt_task pt)]> (running_tasks_ s) ∧
    did_run_ s' = did_run_ s.
Proof.
  intros Hinv Hne.
  destruct (RunTaskWithLockAcquired_begin_spec thread_index s Hinv Hne)
    as (id & l & ns & pt & r & l' & r' & Hrrn & Hns & Hr & Hl' & Hheap'
        & Hr' & Htheap' & Heq).
  pose proof (ready_invariant_begin _ _ _ _ _ Hinv Heq) as Hinv'.
  eexists _, id, ns, pt, _. split; [exact Heq|].
  pose proof (inv_tasks_heap s Hinv id ns Hns) as Htheap. rewrite Hr in Htheap.
  pose proof (inv_namespaces_heap s Hinv) as Hheap. rewrite Hrrn in Hheap.
  assert (Hhead : head_priority (namespaces_ s) id = pt_priority pt).
  { unfold head_priority. by rewrite Hns, Hr. }
  assert (Hnsmin : ∀ id', id' ∈ ready_to_run_namespaces_ s →
            head_priority (namespaces_ s) id ≤ head_priority (namespaces_ s) id').
  { intros id' Hid'. rewrite Hrrn in Hid'.
    pose proof (is_heap_top _ id l (CompareTaskNamespacePriority_swo _)
                  Hheap id' Hid') as H.
    unfold CompareTaskNamespacePriority in H.
    rewrite Z.gtb_ltb, Z.ltb_ge in H. lia. }
  split_and!.
  - done.
  - rewrite Hrrn. by left.
  - by rewrite Hr.
  - intros pt' Hpt'. rewrite Hr in Hpt'. by apply (ready_heap_top pt r).
  - done.
  - intros id' ns' pt' Hns' Hpt'.
    destruct (ready_to_run_tasks ns') as [|p0 r0] eqn:Hr0;
      [by apply elem_of_nil in Hpt'|].
    assert (Hid' : id' ∈ ready_to_run_namespaces_ s).
    { apply (inv_ready s Hinv). exists ns'. by rewrite Hr0. }
    specialize (Hnsmin id' Hid'). rewrite Hhead in Hnsmin.
    assert (head_priority (namespaces_ s) id' = pt_priority p0) as Hh0.
    { unfold head_priority. by rewrite Hns', Hr0. }
    pose proof (inv_tasks_heap s Hinv id' ns' Hns') as Hh. rewrite Hr0 in Hh.
    pose proof (ready_heap_top p0 r0 pt' Hh Hpt'). lia.
  - simpl. apply lookup_insert_eq.
  - simpl. by rewrite Hr, Hr'.
  - rewrite (inv_ready _ Hinv'). simpl. rewrite lookup_insert_eq. split.
    + by intros (? & [= <-] & ?).
    + eauto.
  - done.
  - done.
Qed.

(** A dispatched task runs to completion when no other thread takes the lock
    meanwhile: it is then marked as having run. *)
Lemma RunTaskWithLockAcquired_runs thread_index s s' id task :
  RunTaskWithLockAcquired_begin thread_index s = Some (s', id, task) →
  ∃ s'', RunTaskWithLockAcquired thread_index s = Some s'' ∧
         task ∈ did_run_ s''.
Proof.
  intros Hbegin. unfold RunTaskWithLockAcquired. rewrite Hbegin. simpl.
  assert (Hsome : is_Some (namespaces_ s' !! id)).
  { unfold RunTaskWithLockAcquired_begin in Hbegin.
    repeat (simplify_option_eq || case_match); simpl.
    all: rewrite lookup_insert_eq; eauto. }
  destruct Hsome as [ns' Hns'].
  unfold RunTaskWithLockAcquired_end. rewrite Hns'. simpl.
  eexists. split; [done|]. simpl. set_solver.
Qed.

End Dispatch_priority.

(** A graph of one task without dependencies. *)
Definition single_task_graph (t : Task) (priority : Z) : TaskGraph :=
  mkTaskGraph [mkNode t priority 0] [].

Section Two_namespaces.
Context `{HA : HeapAlgorithms}.

Lemma SetTaskGraph_single_task token t p s :
  namespaces_ s !! token = None → did_run_ s = ∅ →
  running_tasks_ s = [None] →
  ∃ ns, namespaces_ (SetTaskGraph token (single_task_graph t p) s).1 !! token
          = Some ns ∧
        ready_to_run_tasks ns = [mkPrioritizedTask t p].
Proof.
  intros Hnone Hdid Hrun. eexists. split; [apply SetTaskGraph_lookup|].
  rewrite SetTaskGraph_namespace_ready, Hnone. simpl.
  apply Permutation_singleton_r. rewrite make_heap_perm by done.
  unfold discount_completed. simpl. rewrite filter_cons, filter_nil.
  rewrite decide_True; [done|]. split; [done|].
  unfold finished_or_running, HasFinishedRunning, is_running. simpl.
  rewrite Hdid, Hrun. rewrite !bool_decide_eq_false_2; [done| |].
  - intros Hin. apply list_elem_of_singleton in Hin. done.
  - apply not_elem_of_empty.
Qed.

(** With a task of priority 5 ready in namespace 1 and a task of priority 1
    ready in namespace 2, the dispatch takes the task of namespace 2. *)
Lemma dispatch_two_namespaces thread_index s X Y nsX nsY :
  ready_invariant s →
  namespaces_ s !! 1%nat = Some nsX →
  ready_to_run_tasks nsX = [mkPrioritizedTask X 5] →
  namespaces_ s !! 2%nat = Some nsY →
  ready_to_run_tasks nsY = [mkPrioritizedTask Y 1] →
  (∀ id, id ≠ 1%nat → id ≠ 2%nat → namespaces_ s !! id = None) →
  ∃ s', RunTaskWithLockAcquired_begin thread_index s = Some (s', 2%nat, Y).
Proof.
  intros Hinv HX HrX HY HrY Hother.
  assert (Hne : ready_to_run_namespaces_ s ≠ []).
  { assert (2%nat ∈ ready_to_run_namespaces_ s) as Hin.
    { apply (inv_ready s Hinv). exists nsY. by rewrite HrY. }
    intros Hnil. rewrite Hnil in Hin. by apply elem_of_nil in Hin. }
  destruct (RunTaskWithLockAcquired_begin_min thread_index s Hinv Hne)
    as (s' & id & ns & pt & ns1 & Hbegin & Hns & _ & Hhead & _ & _ & Hmin & _).
  assert (Hle : pt_priority pt ≤ 1).
  { apply (Hmin 2%nat nsY (mkPrioritizedTask Y 1) HY). rewrite HrY. by left. }
  exists s'. rewrite Hbegin.
  destruct (decide (id = 2%nat)) as [->|Hne2].
  - rewrite HY in Hns. injection Hns as <-. rewrite HrY in Hhead.
    by injection Hhead as <-.
  - destruct (decide (id = 1%nat)) as [->|Hne1].
    + rewrite HX in Hns. injection Hns as <-. rewrite HrX in Hhead.
      injection Hhead as <-. simpl in Hle. lia.
    + by rewrite Hother in Hns.
Qed.

(** Namespace 1 submits a task of priority 5 and namespace 2 a task of
    priority 1, in either order, to a runner with one worker: the first
    task dispatched is the task of priority 1. *)
Lemma priority_interleave X Y :
  (∃ s', RunTaskWithLockAcquired_begin 0
           (SetTaskGraph 2 (single_task_graph Y 1)
              (SetTaskGraph 1 (single_task_graph X 5)
                 (TaskGraphRunner_new 1)).1).1 = Some (s', 2%nat, Y)) ∧
  (∃ s', RunTaskWithLockAcquired_begin 0
           (SetTaskGraph 1 (single_task_graph X 5)
              (SetTaskGraph 2 (single_task_graph Y 1)
                 (TaskGraphRunner_new 1)).1).1 = Some (s', 2%nat, Y)).
Proof.
  split.
  - set (s1 := (SetTaskGraph 1 (single_task_graph X 5) (TaskGraphRunner_new 1)).1).
    set (s2 := (SetTaskGraph 2 (single_task_graph Y 1) s1).1).
    destruct (SetTaskGraph_single_task 1 X 5 (TaskGraphRunner_new 1))
      as (nsX & HX & HrX); [done..|].
    destruct (SetTaskGraph_single_task 2 Y 1 s1) as (nsY & HY & HrY); [done..|].
    assert (Hinv : ready_invariant s2).
    { do 2 apply ready_invariant_SetTaskGraph. apply ready_invariant_new. }
    assert (HX' : namespaces_ s2 !! 1%nat = Some nsX).
    { unfold s2. by rewrite SetTaskGraph_lookup_ne. }
    assert (Hother : ∀ id, id ≠ 1%nat → id ≠ 2%nat → namespaces_ s2 !! id = None).
    { intros id H1 H2. unfold s2, s1. by rewrite !SetTaskGraph_lookup_ne. }
    exact (dispatch_two_namespaces 0 s2 X Y nsX nsY Hinv HX' HrX HY HrY Hother).
  - set (s1 := (SetTaskGraph 2 (single_task_graph Y 1) (TaskGraphRunner_new 1)).1).
    set (s2 := (SetTaskGraph 1 (single_task_graph X 5) s1).1).
    destruct (SetTaskGraph_single_task 2 Y 1 (TaskGraphRunner_new 1))
      as (nsY & HY & HrY); [done..|].
    destruct (SetTaskGraph_single_task 1 X 5 s1) as (nsX & HX & HrX); [done..|].
    assert (Hinv : ready_invariant s2).
    { do 2 apply ready_invariant_SetTaskGraph. apply ready_invariant_new. }
    assert (HY' : namespaces_ s2 !! 2%nat = Some nsY).
    { unfold s2. by rewrite SetTaskGraph_lookup_ne. }
    assert (Hother : ∀ id, id ≠ 1%nat → id ≠ 2%nat → namespaces_ s2 !! id = None).
    { intros id H1 H2. unfold s2, s1. by rewrite !SetTaskGraph_lookup_ne. }
    exact (dispatch_two_namespaces 0 s2 X Y nsX nsY Hinv HX HrX HY' HrY Hother).
Qed.

End Two_namespaces.

Section Claims_dispatch.
Context `{HA : HeapAlgorithms}.

(** C5: in a reachable state with a ready namespace,
    [RunTaskWithLockAcquired] takes the namespace whose first ready task has
    the lowest priority value among the ready namespaces, and from it the
    ready task with the lowest priority value, which is then the lowest of
    all ready tasks; it removes that task from the ready queue of the
    namespace, keeps the namespace in [ready_to_run_namespaces_] exactly when
    ready tasks are left, puts the task in the slot of the worker, and the
    task has run when the call ends. With one worker, a task of priority 5
    in namespace 1 and a task of priority 1 in namespace 2, the task of
    priority 1 is dispatched first, whichever graph was submitted first. *)
Theorem RunTaskWithLockAcquired_priority :
  (∀ num_threads sys thread_index,
     reachable num_threads sys →
     ready_to_run_namespaces_ (runner sys) ≠ [] →
     ∃ s' id ns pt ns1 s'',
       RunTaskWithLockAcquired_begin thread_index (runner sys)
         = Some (s', id, pt_task pt) ∧
       namespaces_ (runner sys) !! id = Some ns ∧
       id ∈ ready_to_run_namespaces_ (runner sys) ∧
       head (ready_to_run_tasks ns) = Some pt ∧
       (∀ pt', pt' ∈ ready_to_run_tasks ns →
          pt_priority pt ≤ pt_priority pt') ∧
       (∀ id', id' ∈ ready_to_run_namespaces_ (runner sys) →
          head_priority (namespaces_ (runner sys)) id
          ≤ head_priority (namespaces_ (runner sys)) id') ∧
       (∀ id' ns' pt', namespaces_ (runner sys) !! id' = Some ns' →
          pt' ∈ ready_to_run_tasks ns' → pt_priority pt ≤ pt_priority pt') ∧
       namespaces_ s' !! id = Some ns1 ∧
       pt :: ready_to_run_tasks ns1 ≡ₚ ready_to_run_tasks ns ∧
       (id ∈ ready_to_run_namespaces_ s' ↔ ready_to_run_tasks ns1 ≠ []) ∧
       running_tasks_ s' =
         <[thread_index := Some (pt_task pt)]> (running_tasks_ (runner sys)) ∧
       RunTaskWithLockAcquired thread_index (runner sys) = Some s'' ∧
       pt_task pt ∈ did_run_ s'') ∧
  (∀ X Y,
     (∃ s', RunTaskWithLockAcquired_begin 0
              (SetTaskGraph 2 (single_task_graph Y 1)
                 (SetTaskGraph 1 (single_task_graph X 5)
                    (TaskGraphRunner_new 1)).1).1 = Some (s', 2%nat, Y)) ∧
     (∃ s', RunTaskWithLockAcquired_begin 0
              (SetTaskGraph 1 (single_task_graph X 5)
                 (SetTaskGraph 2 (single_task_graph Y 1)
                    (TaskGraphRunner_new 1)).1).1 = Some (s', 2%nat, Y))).
Proof.
  split; [|apply priority_interleave].
  intros num_threads sys thread_index Hreach Hne.
  pose proof (ready_invariant_reachable _ _ Hreach) as Hinv.
  destruct (RunTaskWithLockAcquired_begin_min thread_index _ Hinv Hne)
    as (s' & id & ns & pt & ns1 & Hbegin & H1 & H2 & H3 & H4 & H5 & H6 & H7
        & H8 & H9 & H10 & _).
  destruct (RunTaskWithLockAcquired_runs _ _ _ _ _ Hbegin) as (s'' & Hrun & Hdid).
  exists s', id, ns, pt, ns1, s''. split_and!; done.
Qed.

(** C10: in every state the scheduler reaches between two critical sections
    (also while workers are inside task bodies), a namespace is in
    [ready_to_run_namespaces_] if and only if its ready queue is not empty,
    and no namespace is there twice. *)
Theorem ready_to_run_namespaces_invariant num_threads sys :
  reachable num_threads sys →
  NoDup (ready_to_run_namespaces_ (runner sys)) ∧
  ∀ id, id ∈ ready_to_run_namespaces_ (runner sys) ↔
        ∃ ns, namespaces_ (runner sys) !! id = Some ns ∧
              ready_to_run_tasks ns ≠ [].
Proof.
  intros Hreach. pose proof (ready_invariant_reachable _ _ Hreach) as Hinv.
  split; [apply (inv_NoDup _ Hinv)|apply (inv_ready _ Hinv)].
Qed.

End Claims_dispatch.

(** ** Submitting the same graph twice *)

Lemma for_each_dependent_no_edges {St : Type} (get_nodes : St → list Node)
    (body : nat → St → St) task es s :
  (∀ e, e ∈ es → edge_task e ≠ task) →
  for_each_dependent get_nodes body task es s = s.
Proof.
  induction es as [|e es IH]; intros Hes; simpl; [done|].
  rewrite decide_False by (apply Hes; by left).
  apply IH. intros e' He'. apply Hes. by right.
Qed.

Lemma discount_completed_app c c' g :
  (∀ t e, t ∈ c' → e ∈ edges g → edge_task e ≠ t) →
  discount_completed (c ++ c') g = discount_completed c g.
Proof.
  intros Hc'. unfold discount_completed. rewrite foldl_app.
  generalize (foldl (λ ns t, for_each_dependent id decrement_dependencies t
                               (edges g) ns) (nodes g) c).
  induction c' as [|t c' IH]; intros ns; simpl; [done|].
  rewrite for_each_dependent_no_edges by (intros e He; apply (Hc' t e); [by left|done]).
  apply IH. intros t' e Ht'. apply Hc'. by right.
Qed.

Lemma count_occ_NoDup_le (l : list Task) t :
  NoDup l → (count_occ Nat.eq_dec l t ≤ 1)%nat.
Proof.
  intros Hnd. apply (proj1 (NoDup_count_occ Nat.eq_dec l)).
  by apply NoDup_ListNoDup.
Qed.

(** The tasks of the old nodes that [build_ready] leaves are not tasks of the
    new graph, when the old graph has one node for each task. *)
Lemma build_ready_fst_not_new s new old ready t :
  NoDup (node_task <$> old) →
  t ∈ node_task <$> (build_ready s new old ready).1 →
  t ∉ node_task <$> new.
Proof.
  intros Hnd Hin Hnew.
  apply list_elem_of_In, (count_occ_In Nat.eq_dec) in Hin.
  apply list_elem_of_In, (count_occ_In Nat.eq_dec) in Hnew.
  rewrite build_ready_fst_count in Hin.
  pose proof (count_occ_NoDup_le _ t Hnd). lia.
Qed.

(** Nothing is left of an old graph with the tasks of the new graph. *)
Lemma build_ready_fst_same_tasks s new old ready :
  node_task <$> old = node_task <$> new →
  (build_ready s new old ready).1 = [].
Proof.
  intros Heq.
  assert (H : node_task <$> (build_ready s new old ready).1 = []).
  { apply (count_occ_inv_nil Nat.eq_dec). intros t.
    rewrite build_ready_fst_count, Heq. lia. }
  by apply fmap_nil_inv in H.
Qed.

Section Twice.
Context `{HA : HeapAlgorithms}.

Lemma SetTaskGraph_twice_namespace token g s :
  well_formed_graph g →
  NoDup (node_task <$>
           nodes (graph (default new_TaskNamespace (namespaces_ s !! token)))) →
  ∃ ns1 ns2,
    namespaces_ (SetTaskGraph token g s).1 !! token = Some ns1 ∧
    namespaces_ (SetTaskGraph token g (SetTaskGraph token g s).1).1 !! token
      = Some ns2 ∧
    graph ns2 = graph ns1 ∧
    ready_to_run_tasks ns2 ≡ₚ ready_to_run_tasks ns1 ∧
    completed_tasks ns2 = completed_tasks ns1 ∧
    num_running_tasks ns2 = num_running_tasks ns1 ∧
    nodes (SetTaskGraph token g (SetTaskGraph token g s).1).2 = [] ∧
    (namespaces_ s !! token = None → completed_tasks ns1 = []).
Proof.
  intros Hwf Hnd.
  set (ns0 := default new_TaskNamespace (namespaces_ s !! token)) in *.
  set (s1 := (SetTaskGraph token g s).1).
  set (ns1 := SetTaskGraph_namespace s ns0 g).
  assert (Hns1 : namespaces_ s1 !! token = Some ns1)
    by apply SetTaskGraph_lookup.
  exists ns1, (SetTaskGraph_namespace s1 ns1 g).
  assert (Hg1 : graph ns1 =
    mkTaskGraph (discount_completed (completed_tasks ns0) g) (edges g))
    by apply SetTaskGraph_namespace_graph.
  assert (Hr1 : ready_to_run_tasks ns1 =
    make_heap CompareTaskPriority
      (to_PrioritizedTask <$>
         filter (is_runnable s) (discount_completed (completed_tasks ns0) g)))
    by apply SetTaskGraph_namespace_ready.
  assert (Hc1 : completed_tasks ns1 =
    completed_tasks ns0 ++
    canceled_tasks s
      (build_ready s (discount_completed (completed_tasks ns0) g)
         (nodes (graph ns0)) []).1)
    by apply SetTaskGraph_namespace_completed.
  assert (Hdisc : discount_completed (completed_tasks ns1) g
                  = discount_completed (completed_tasks ns0) g).
  { rewrite Hc1.
    apply discount_completed_app. intros t e Ht He Heq.
    unfold canceled_tasks in Ht. apply list_elem_of_filter in Ht as [_ Ht].
    apply (build_ready_fst_not_new _ _ _ _ _ Hnd) in Ht.
    rewrite discount_completed_tasks in Ht. apply Ht. rewrite <- Heq.
    by apply (wf_edge_task g Hwf). }
  assert (Hleft : (build_ready s1 (discount_completed (completed_tasks ns1) g)
                     (nodes (graph ns1)) []).1 = []).
  { apply build_ready_fst_same_tasks. rewrite Hg1. simpl.
    by rewrite !discount_completed_tasks. }
  split_and!.
  - done.
  - pose proof (SetTaskGraph_lookup token g s1) as H.
    by rewrite Hns1 in H.
  - by rewrite SetTaskGraph_namespace_graph, Hdisc, Hg1.
  - rewrite SetTaskGraph_namespace_ready, Hdisc, Hr1.
    by rewrite !make_heap_perm by done.
  - rewrite SetTaskGraph_namespace_completed, Hleft.
    unfold canceled_tasks. simpl. by rewrite app_nil_r.
  - by rewrite SetTaskGraph_namespace_num_running.
  - change (nodes (SetTaskGraph_out s1
              (default new_TaskNamespace (namespaces_ s1 !! token)) g) = []).
    rewrite Hns1. exact Hleft.
  - intros Hnone. rewrite Hc1.
    unfold ns0. rewrite Hnone. simpl.
    rewrite build_ready_fst. simpl.
    assert (Hfold : ∀ new : list Node,
      foldl (λ o n, remove_old_node (node_task n) o) [] new = []).
    { induction new as [|n new IH]; [done|]. simpl. exact IH. }
    by rewrite Hfold.
Qed.

End Twice.

(** ** One node for each task *)

(** Every graph held by the scheduler has one node for each of its tasks. *)
Definition graphs_NoDup (s : TaskGraphRunner) : Prop :=
  ∀ id ns, namespaces_ s !! id = Some ns →
    NoDup (node_task <$> nodes (graph ns)).

Lemma decrement_dependencies_tasks i (ns : list Node) :
  node_task <$> decrement_dependencies i ns = node_task <$> ns.
Proof.
  rewrite decrement_dependencies_imap.
  apply (dec_node_tasks (λ j, if decide (j = i) then 1%nat else 0%nat)).
Qed.

Section Graphs_NoDup.
Context `{HA : HeapAlgorithms}.

Lemma fan_out_body_tasks id i f :
  node_task <$> fo_nodes (fan_out_body id i f) = node_task <$> fo_nodes f.
Proof.
  unfold fan_out_body, fo_nodes.
  destruct (decrement_dependencies i _ !! i) as [dn|]; [|done].
  destruct (node_dependencies dn =? 0); simpl;
    apply decrement_dependencies_tasks.
Qed.

Lemma RunTaskWithLockAcquired_begin_graph thread_index s s' id task :
  RunTaskWithLockAcquired_begin thread_index s = Some (s', id, task) →
  ∀ id' ns', namespaces_ s' !! id' = Some ns' →
  ∃ ns, namespaces_ s !! id' = Some ns ∧ graph ns' = graph ns ∧
        completed_tasks ns' = completed_tasks ns.
Proof.
  unfold RunTaskWithLockAcquired_begin. intros Hbegin id' ns'.
  repeat (simplify_option_eq || case_match); simpl.
  all: destruct (decide (id' = id)) as [->|Hne];
    [rewrite lookup_insert_eq; intros [= <-]; eauto
    |rewrite lookup_insert_ne by done; eauto].
Qed.

Lemma RunTaskWithLockAcquired_end_graph thread_index id task s s' :
  RunTaskWithLockAcquired_end thread_index id task s = Some s' →
  ∀ id' ns', namespaces_ s' !! id' = Some ns' →
  ∃ ns, namespaces_ s !! id' = Some ns ∧
        node_task <$> nodes (graph ns') = node_task <$> nodes (graph ns).
Proof.
  unfold RunTaskWithLockAcquired_end.
  destruct (namespaces_ s !! id) as [ns|] eqn:Hns; [|done]. simpl.
  intros [= <-] id' ns'. cbn [namespaces_].
  destruct (decide (id' = id)) as [->|Hne].
  - rewrite (lookup_insert_eq (namespaces_ s)). intros [= <-].
    exists ns. split; [done|]. cbn [graph].
    apply (for_each_dependent_ind
             (λ f, node_task <$> fo_nodes f = node_task <$> nodes (graph ns)));
      [|done].
    intros i f Hf. by rewrite fan_out_body_tasks.
  - rewrite lookup_insert_ne by done. eauto.
Qed.

Lemma graphs_NoDup_step sys sys' :
  step sys sys' → graphs_NoDup (runner sys) → graphs_NoDup (runner sys').
Proof.
  destruct 1 as [r fr|r fr token g Htoken Hwf|r fr token Htoken
                 |r fr idx r' id task Hfr Hidx Hbegin
                 |r fr idx r' id task Hfr Hend];
    cbn [runner]; intros Hinv id' ns'.
  - apply Hinv.
  - destruct (decide (id' = token)) as [->|Hne].
    + rewrite SetTaskGraph_lookup. intros [= <-].
      rewrite SetTaskGraph_namespace_graph. simpl.
      rewrite discount_completed_tasks. apply Hwf.
    + rewrite SetTaskGraph_lookup_ne by done. apply Hinv.
  - unfold CollectCompletedTasks.
    destruct (namespaces_ r !! token) as [ns|] eqn:Hns; [|apply Hinv].
    destruct (HasFinishedRunningTasksInNamespace _); simpl.
    + destruct (decide (id' = token)) as [->|Hne].
      * by rewrite lookup_delete_eq.
      * rewrite lookup_delete_ne by done. apply Hinv.
    + destruct (decide (id' = token)) as [->|Hne].
      * rewrite lookup_insert_eq. intros [= <-]. simpl. by apply (Hinv token).
      * rewrite lookup_insert_ne by done. apply Hinv.
  - intros Hns'.
    destruct (RunTaskWithLockAcquired_begin_graph _ _ _ _ _ Hbegin _ _ Hns')
      as (ns & Hns & -> & _). by apply (Hinv id').
  - intros Hns'.
    destruct (RunTaskWithLockAcquired_end_graph _ _ _ _ _ Hend _ _ Hns')
      as (ns & Hns & ->). by apply (Hinv id').
Qed.

Lemma graphs_NoDup_reachable num_threads sys :
  reachable num_threads sys → graphs_NoDup (runner sys).
Proof.
  induction 1 as [|sys sys' _ IH Hstep].
  - intros id ns Hns. simpl in Hns. by rewrite lookup_empty in Hns.
  - by eapply graphs_NoDup_step.
Qed.

Lemma rebuild_ready_to_run_namespaces_perm (m m' : gmap nat TaskNamespace) :
  (∀ id, (∃ ns, m !! id = Some ns ∧ ready_to_run_tasks ns ≠ []) ↔
         (∃ ns, m' !! id = Some ns ∧ ready_to_run_tasks ns ≠ [])) →
  rebuild_ready_to_run_namespaces m ≡ₚ rebuild_ready_to_run_namespaces m'.
Proof.
  intros Hiff. unfold rebuild_ready_to_run_namespaces.
  rewrite !make_heap_perm by done.
  apply NoDup_Permutation; [apply NoDup_namespaces_with_ready_tasks..|].
  intros id. by rewrite !elem_of_namespaces_with_ready_tasks.
Qed.

(** C8: in a reachable state, submitting a well-formed graph a second time
    right after the first time changes nothing that can be observed: the
    namespace has the same graph (nodes with their counts, and edges), the
    same ready tasks, the same completed queue (no task is cancelled, and the
    queue is empty when the token had no namespace before the first call),
    the same counter; no node is handed back to the caller; the same
    namespaces are ready; the other namespaces, the running tasks and the
    [did_run_] flags are the same. *)
Theorem SetTaskGraph_twice num_threads sys token g :
  reachable num_threads sys → well_formed_graph g →
  ∃ ns1 ns2,
    namespaces_ (SetTaskGraph token g (runner sys)).1 !! token = Some ns1 ∧
    namespaces_ (SetTaskGraph token g
                   (SetTaskGraph token g (runner sys)).1).1 !! token
      = Some ns2 ∧
    graph ns2 = graph ns1 ∧
    ready_to_run_tasks ns2 ≡ₚ ready_to_run_tasks ns1 ∧
    completed_tasks ns2 = completed_tasks ns1 ∧
    num_running_tasks ns2 = num_running_tasks ns1 ∧
    nodes (SetTaskGraph token g (SetTaskGraph token g (runner sys)).1).2 = [] ∧
    (namespaces_ (runner sys) !! token = None → completed_tasks ns1 = []) ∧
    ready_to_run_namespaces_
      (SetTaskGraph token g (SetTaskGraph token g (runner sys)).1).1
      ≡ₚ ready_to_run_namespaces_ (SetTaskGraph token g (runner sys)).1 ∧
    (∀ id, id ≠ token →
       namespaces_ (SetTaskGraph token g
                      (SetTaskGraph token g (runner sys)).1).1 !! id
       = namespaces_ (SetTaskGraph token g (runner sys)).1 !! id) ∧
    running_tasks_ (SetTaskGraph token g (SetTaskGraph token g (runner sys)).1).1
      = running_tasks_ (SetTaskGraph token g (runner sys)).1 ∧
    did_run_ (SetTaskGraph token g (SetTaskGraph token g (runner sys)).1).1
      = did_run_ (SetTaskGraph token g (runner sys)).1.
Proof.
  intros Hreach Hwf.
  assert (Hnd : NoDup (node_task <$> nodes (graph
            (default new_TaskNamespace (namespaces_ (runner sys) !! token))))).
  { destruct (namespaces_ (runner sys) !! token) as [ns|] eqn:Hns; simpl.
    - by apply (graphs_NoDup_reachable _ _ Hreach token).
    - constructor. }
  destruct (SetTaskGraph_twice_namespace token g (runner sys) Hwf Hnd)
    as (ns1 & ns2 & H1 & H2 & Hg & Hr & Hc & Hn & Hout & Hfresh).
  assert (Hother : ∀ id, id ≠ token →
       namespaces_ (SetTaskGraph token g
                      (SetTaskGraph token g (runner sys)).1).1 !! id
       = namespaces_ (SetTaskGraph token g (runner sys)).1 !! id).
  { intros id Hne. by rewrite SetTaskGraph_lookup_ne. }
  exists ns1, ns2. split_and!; try done.
  set (s1 := (SetTaskGraph token g (runner sys)).1) in *.
  set (s2 := (SetTaskGraph token g s1).1) in *.
  change (rebuild_ready_to_run_namespaces (namespaces_ s2)
          ≡ₚ rebuild_ready_to_run_namespaces (namespaces_ s1)).
  apply rebuild_ready_to_run_namespaces_perm. intros id.
  destruct (decide (id = token)) as [->|Hne].
  - rewrite H1, H2. split; intros (ns & [= <-] & Hne); eexists; (split; [done|]).
    + intros Hnil. rewrite Hnil in Hr. by apply Permutation_nil_r in Hr.
    + intros Hnil. rewrite Hnil in Hr. by apply Permutation_nil_l in Hr.
  - by rewrite (Hother id Hne).
Qed.

End Graphs_NoDup.

(** ** Checking a submitted graph *)

Definition well_formed_graphb (g : TaskGraph) : bool :=
  forallb (λ n, node_dependencies n
                =? Z.of_nat (incoming (edges g) (node_task n))) (nodes g)
  && forallb (λ e, bool_decide (edge_task e ∈ node_task <$> nodes g)
                   && bool_decide (edge_dependent e ∈ node_task <$> nodes g))
             (edges g)
  && bool_decide (NoDup (node_task <$> nodes g))
  && (Z.of_nat (length (edges g)) <? UINT_MOD).

Lemma well_formed_graphb_correct g :
  well_formed_graphb g = true → well_formed_graph g.
Proof.
  unfold well_formed_graphb.
  rewrite !andb_true_iff, !forallb_forall, bool_decide_eq_true, Z.ltb_lt.
  intros [[[Hdeps Hedges] Hnd] Hbound]. split; try done.
  - intros n Hn. apply Z.eqb_eq, Hdeps. by apply list_elem_of_In.
  - intros e He. apply list_elem_of_In, Hedges in He.
    apply andb_true_iff in He as [He _]. by apply bool_decide_eq_true in He.
  - intros e He. apply list_elem_of_In, Hedges in He.
    apply andb_true_iff in He as [_ He]. by apply bool_decide_eq_true in He.
Qed.

(** ** The scheduler on concrete graphs *)

Module Scenario.

(** The scenarios run on a runner without worker threads, stepped through
    slot 0 as [RunTaskForTesting] does, with the sorting implementation of
    the heap algorithms. Every graph gives its tasks different priorities,
    so every conforming implementation dispatches in the same order. *)
#[local] Instance HA : HeapAlgorithms := SortedHeap.algorithms.

Definition A : Task := 1%nat.
Definition B : Task := 2%nat.
Definition C : Task := 3%nat.

(** The empty graph. *)
Definition G_empty : TaskGraph := mkTaskGraph [] [].

(** [{A}]. *)
Definition G_A : TaskGraph := mkTaskGraph [mkNode A 0 0] [].

(** [{C}]. *)
Definition G_C : TaskGraph := mkTaskGraph [mkNode C 0 0] [].

(** [{A, B; A→B}]: B depends on A. *)
Definition G_AB : TaskGraph :=
  mkTaskGraph [mkNode A 0 0; mkNode B 1 1] [mkEdge A B].

(** The token of the first namespace. *)
Definition token : nat := (GetNamespaceToken (TaskGraphRunner_new 0)).2.

Definition start : TaskGraphRunner :=
  (GetNamespaceToken (TaskGraphRunner_new 0)).1.

(** [{A, B; A→B}] has been submitted. *)
Definition submitted_AB : TaskGraphRunner := (SetTaskGraph token G_AB start).1.

(** [{A}] has been submitted and then cancelled by the empty graph. *)
Definition canceled_A : TaskGraphRunner :=
  (SetTaskGraph token G_empty (SetTaskGraph token G_A start).1).1.

(** After the cancellation of [A], [{A, B; A→B}] has been submitted. *)
Definition resubmitted_AB : TaskGraphRunner :=
  (SetTaskGraph token G_AB canceled_A).1.

(** The state in which the task body runs, after the dispatch to slot 0. *)
Definition after_dispatch (s : TaskGraphRunner) : TaskGraphRunner :=
  match RunTaskWithLockAcquired_begin 0 s with
  | Some (s', _, _) => s'
  | None => s
  end.

(** The state after a whole run of a task through slot 0. *)
Definition after_run (s : TaskGraphRunner) : TaskGraphRunner :=
  default s (RunTaskWithLockAcquired 0 s).

(** [A] has been dispatched to slot 0: the worker is in the task body. *)
Definition running_A : TaskGraphRunner := after_dispatch resubmitted_AB.

(** [A] has finished. *)
Definition finished_A : TaskGraphRunner := after_run resubmitted_AB.

(** [A] has been submitted and cancelled twice. *)
Definition canceled_A_twice : TaskGraphRunner :=
  (SetTaskGraph token G_empty (SetTaskGraph token G_A canceled_A).1).1.

(** [{A, B; A→B}] has been submitted and [A] has run. *)
Definition ran_A_of_AB : TaskGraphRunner := after_run submitted_AB.

(** [{A, B; A→B}] has been submitted and both tasks have run. *)
Definition ran_AB : TaskGraphRunner := after_run ran_A_of_AB.

(** [{A}] has been submitted and [A] has run. *)
Definition ran_A : TaskGraphRunner :=
  after_run (SetTaskGraph token G_A start).1.

(** The namespace of the token. *)
Definition namespace_of (s : TaskGraphRunner) : TaskNamespace :=
  default new_TaskNamespace (namespaces_ s !! token).

(** *** The graphs are well formed and the states are reachable *)

Lemma G_empty_well_formed : well_formed_graph G_empty.
Proof. apply well_formed_graphb_correct. vm_compute. reflexivity. Qed.

Lemma G_A_well_formed : well_formed_graph G_A.
Proof. apply well_formed_graphb_correct. vm_compute. reflexivity. Qed.

Lemma G_C_well_formed : well_formed_graph G_C.
Proof. apply well_formed_graphb_correct. vm_compute. reflexivity. Qed.

Lemma G_AB_well_formed : well_formed_graph G_AB.
Proof. apply well_formed_graphb_correct. vm_compute. reflexivity. Qed.

Lemma token_valid : token ≠ 0%nat.
Proof. vm_compute. discriminate. Qed.

#[local] Hint Resolve G_empty_well_formed G_A_well_formed G_C_well_formed
  G_AB_well_formed token_valid : core.

Lemma reachable_start : reachable 0 (mkSystem start ∅).
Proof.
  eapply reachable_step; [apply reachable_new|].
  apply step_GetNamespaceToken.
Qed.

Lemma reachable_SetTaskGraph s fr g :
  well_formed_graph g → reachable 0 (mkSystem s fr) →
  reachable 0 (mkSystem (SetTaskGraph token g s).1 fr).
Proof.
  intros Hwf Hs. eapply reachable_step; [exact Hs|].
  by apply step_SetTaskGraph.
Qed.

Lemma running_tasks_length num_threads sys :
  reachable num_threads sys →
  length (running_tasks_ (runner sys)) = (num_threads `max` 1)%nat.
Proof.
  induction 1 as [|sys sys' _ IH Hstep].
  - simpl. apply length_replicate.
  - rewrite <- IH.
    destruct Hstep as [| | |? ? ? ? ? ? ? ? Hb|? ? ? ? ? ? ? He]; simpl;
      try done.
    + unfold CollectCompletedTasks. repeat case_match; done.
    + unfold RunTaskWithLockAcquired_begin in Hb.
      repeat (simplify_option_eq || case_match); simpl;
        by rewrite length_insert.
    + unfold RunTaskWithLockAcquired_end in He.
      repeat (simplify_option_eq || case_match); simpl;
        by rewrite length_insert.
Qed.

Lemma reachable_dispatch s s1 id task :
  reachable 0 (mkSystem s ∅) →
  RunTaskWithLockAcquired_begin 0 s = Some (s1, id, task) →
  reachable 0 (mkSystem s1 (<[0%nat := (id, task)]> ∅)).
Proof.
  intros Hs Hbegin. eapply reachable_step; [exact Hs|].
  apply step_RunTask_begin; [done| |done].
  pose proof (running_tasks_length _ _ Hs) as Hlen. simpl in Hlen.
  rewrite Hlen. lia.
Qed.

Lemma reachable_run s s1 id task s2 :
  reachable 0 (mkSystem s ∅) →
  RunTaskWithLockAcquired_begin 0 s = Some (s1, id, task) →
  RunTaskWithLockAcquired_end 0 id task s1 = Some s2 →
  reachable 0 (mkSystem s2 ∅).
Proof.
  intros Hs Hbegin Hend.
  eapply reachable_step; [exact (reachable_dispatch _ _ _ _ Hs Hbegin)|].
  replace (∅ : gmap nat (nat * Task))
    with (delete 0%nat (<[0%nat := (id, task)]> (∅ : gmap nat (nat * Task))))
    at 2 by by rewrite delete_insert_eq, delete_empty.
  apply (step_RunTask_end _ _ 0%nat _ id task); [apply lookup_insert_eq|done].
Qed.

Lemma reachable_submitted_AB : reachable 0 (mkSystem submitted_AB ∅).
Proof. apply reachable_SetTaskGraph; [done|apply reachable_start]. Qed.

Lemma reachable_canceled_A : reachable 0 (mkSystem canceled_A ∅).
Proof. do 2 (apply reachable_SetTaskGraph; [done|]). apply reachable_start. Qed.

Lemma reachable_resubmitted_AB : reachable 0 (mkSystem resubmitted_AB ∅).
Proof. apply reachable_SetTaskGraph; [done|apply reachable_canceled_A]. Qed.

Lemma dispatch_A :
  RunTaskWithLockAcquired_begin 0 resubmitted_AB = Some (running_A, token, A).
Proof. vm_compute. reflexivity. Qed.

Lemma finish_A :
  RunTaskWithLockAcquired_end 0 token A running_A = Some finished_A.
Proof. vm_compute. reflexivity. Qed.

Lemma reachable_running_A :
  reachable 0 (mkSystem running_A (<[0%nat := (token, A)]> ∅)).
Proof.
  exact (reachable_dispatch _ _ _ _ reachable_resubmitted_AB dispatch_A).
Qed.

Lemma reachable_finished_A : reachable 0 (mkSystem finished_A ∅).
Proof.
  exact (reachable_run _ _ _ _ _ reachable_resubmitted_AB dispatch_A finish_A).
Qed.

Lemma reachable_canceled_A_twice : reachable 0 (mkSystem canceled_A_twice ∅).
Proof. do 2 (apply reachable_SetTaskGraph; [done|]). apply reachable_canceled_A. Qed.

Lemma reachable_ran_A : reachable 0 (mkSystem ran_A ∅).
Proof.
  apply (reachable_run (SetTaskGraph token G_A start).1
           (after_dispatch (SetTaskGraph token G_A start).1) token A ran_A).
  - apply reachable_SetTaskGraph; [done|apply reachable_start].
  - vm_compute. reflexivity.
  - vm_compute. reflexivity.
Qed.

Lemma reachable_ran_A_of_AB : reachable 0 (mkSystem ran_A_of_AB ∅).
Proof.
  apply (reachable_run submitted_AB (after_dispatch submitted_AB) token A
           ran_A_of_AB).
  - apply reachable_submitted_AB.
  - vm_compute. reflexivity.
  - vm_compute. reflexivity.
Qed.

Lemma reachable_ran_AB : reachable 0 (mkSystem ran_AB ∅).
Proof.
  apply (reachable_run ran_A_of_AB (after_dispatch ran_A_of_AB) token B ran_AB).
  - apply reachable_ran_A_of_AB.
  - vm_compute. reflexivity.
  - vm_compute. reflexivity.
Qed.

(** *** Dependency counts that wrap around *)

(** C9: the counter of [B] is decremented at 0, in both loops, in states
    reached with well-formed graphs only. [A] is submitted and cancelled,
    which leaves it in [completed_tasks], and then submitted with its
    dependent [B]. The discount loop of [SetTaskGraph] takes the count of [B]
    from 1 to 0 and queues both tasks; when [A] has run, the fan-out loop of
    [RunTaskWithLockAcquired] decrements the count of [B] at 0, to [2^32 - 1].
    After two cancellations of [A], the discount loop alone decrements the
    count of [B] twice, from 1 to [2^32 - 1]. *)
Theorem dependencies_underflow :
  reachable 0 (mkSystem running_A (<[0%nat := (token, A)]> ∅)) ∧
  running_tasks_ running_A = [Some A] ∧
  nodes (graph (namespace_of running_A)) = [mkNode A 0 0; mkNode B 1 0] ∧
  edges (graph (namespace_of running_A)) = [mkEdge A B] ∧
  RunTaskWithLockAcquired_end 0 token A running_A = Some finished_A ∧
  nodes (graph (namespace_of finished_A))
    = [mkNode A 0 0; mkNode B 1 (UINT_MOD - 1)] ∧
  reachable 0 (mkSystem canceled_A_twice ∅) ∧
  completed_tasks (namespace_of canceled_A_twice) = [A; A] ∧
  nodes (graph (namespace_of (SetTaskGraph token G_AB canceled_A_twice).1))
    = [mkNode A 0 0; mkNode B 1 (UINT_MOD - 1)].
Proof.
  split; [apply reachable_running_A|].
  split_and!; try (vm_compute; reflexivity).
  apply reachable_canceled_A_twice.
Qed.

(** C2: a reachable state in which a task is in the ready queue of its
    namespace while the dependency count of its node is greater than zero:
    after the run of [A] above, [B] is ready and its count is [2^32 - 1]. *)
Theorem ready_task_with_dependencies :
  reachable 0 (mkSystem finished_A ∅) ∧
  ∃ ns n, namespaces_ finished_A !! token = Some ns ∧
          n ∈ nodes (graph ns) ∧ node_task n = B ∧
          node_dependencies n > 0 ∧
          mkPrioritizedTask B 1 ∈ ready_to_run_tasks ns.
Proof.
  split; [apply reachable_finished_A|].
  exists (namespace_of finished_A), (mkNode B 1 (UINT_MOD - 1)).
  split_and!; try (vm_compute; reflexivity).
  - vm_compute. apply list_elem_of_In. right. left. reflexivity.
  - vm_compute. apply list_elem_of_In. left. reflexivity.
Qed.

(** C3, counterexample: [{A, B; A→B}] is submitted and both tasks run; the
    same graph is submitted again before the completed tasks are collected.
    The one dependency of [B] is a completed, uncollected task and the count
    of [B] is discounted to 0, but [B] is not made ready, because it has
    finished running. *)
Lemma discounted_node_not_ready :
  reachable 0 (mkSystem ran_AB ∅) ∧ well_formed_graph G_AB ∧
  ¬ (∀ n, n ∈ nodes G_AB →
       (∀ e, e ∈ edges G_AB → edge_dependent e = node_task n →
          edge_task e ∈ completed_tasks (namespace_of ran_AB)) →
       node_task n ∈
         pt_task <$> ready_to_run_tasks
                       (namespace_of (SetTaskGraph token G_AB ran_AB).1)).
Proof.
  split; [apply reachable_ran_AB|]. split; [done|].
  intros H. specialize (H (mkNode B 1 1)).
  assert (Hin : B ∈ pt_task <$> ready_to_run_tasks
                  (namespace_of (SetTaskGraph token G_AB ran_AB).1)).
  { apply H.
    - apply list_elem_of_In. right. left. reflexivity.
    - intros e He _. apply list_elem_of_In in He. destruct He as [<-|[]].
      vm_compute. apply list_elem_of_In. left. reflexivity. }
  vm_compute in Hin. by apply elem_of_nil in Hin.
Qed.

(** *** The theorems at concrete inputs *)

(** [{A, B; A→B}] is submitted and, before anything runs, replaced by [{C}]:
    [A] and [B] are in [completed_tasks] and have not run. *)
Lemma SetTaskGraph_cancels_witness :
  namespaces_ submitted_AB !! token = Some (namespace_of submitted_AB) ∧
  ∃ ns', namespaces_ (SetTaskGraph token G_C submitted_AB).1 !! token
           = Some ns' ∧
         A ∈ completed_tasks ns' ∧ B ∈ completed_tasks ns' ∧
         (A ∉ did_run_ (SetTaskGraph token G_C submitted_AB).1) ∧
         (B ∉ did_run_ (SetTaskGraph token G_C submitted_AB).1).
Proof.
  assert (Hns : namespaces_ submitted_AB !! token
                = Some (namespace_of submitted_AB))
    by (vm_compute; reflexivity).
  split; [exact Hns|].
  destruct (SetTaskGraph_cancels token G_C submitted_AB _ Hns)
    as (ns' & appended & Hlook & Hcompl & _ & Happ & _).
  exists ns'. split; [exact Hlook|]. rewrite Hcompl.
  destruct (Happ A) as [HA1 HA2]; try (vm_compute; reflexivity).
  { apply list_elem_of_In. vm_compute. left. reflexivity. }
  { intros Hin. apply list_elem_of_In in Hin. vm_compute in Hin.
    destruct Hin as [[=]|[]]. }
  destruct (Happ B) as [HB1 HB2]; try (vm_compute; reflexivity).
  { apply list_elem_of_In. vm_compute. right. left. reflexivity. }
  { intros Hin. apply list_elem_of_In in Hin. vm_compute in Hin.
    destruct Hin as [[=]|[]]. }
  split_and!; [apply elem_of_app; by right|apply elem_of_app; by right|done..].
Defined.

(** [{A}] is submitted and [A] runs; before it is collected, [{A, B; A→B}]
    is submitted: the count of [B] is discounted to 0 and [B] is ready. *)
Lemma SetTaskGraph_discount_witness :
  well_formed_graph G_AB ∧
  completed_tasks (namespace_of ran_A) = [A] ∧
  nodes (graph (namespace_of (SetTaskGraph token G_AB ran_A).1)) !! 1%nat
    = Some (mkNode B 1 0) ∧
  mkPrioritizedTask B 1 ∈
    ready_to_run_tasks (namespace_of (SetTaskGraph token G_AB ran_A).1).
Proof.
  split; [exact G_AB_well_formed|]. split; [vm_compute; reflexivity|].
  destruct (SetTaskGraph_discount token G_AB ran_A)
    as (ns' & Hlook & Hnodes & Hready).
  unfold namespace_of at 1 2. rewrite Hlook.
  change (default new_TaskNamespace (Some ns')) with ns'. split.
  - rewrite (Hnodes 1%nat (mkNode B 1 1) eq_refl). vm_compute. reflexivity.
  - apply (Hready (mkNode B 1 1)); try (vm_compute; reflexivity).
    + exact G_AB_well_formed.
    + apply list_elem_of_In. right. left. reflexivity.
    + intros e He _. apply list_elem_of_In in He. destruct He as [<-|[]].
      vm_compute. reflexivity.
Defined.

(** After the resubmission of [{A, B; A→B}] both tasks are ready: the task
    dispatched has the lowest priority value of all ready tasks. *)
Lemma RunTaskWithLockAcquired_priority_witness :
  reachable 0 (mkSystem resubmitted_AB ∅) ∧
  ready_to_run_namespaces_ resubmitted_AB ≠ [] ∧
  ∃ s' id pt,
    RunTaskWithLockAcquired_begin 0 resubmitted_AB = Some (s', id, pt_task pt) ∧
    ∀ id' ns' pt', namespaces_ resubmitted_AB !! id' = Some ns' →
      pt' ∈ ready_to_run_tasks ns' → pt_priority pt ≤ pt_priority pt'.
Proof.
  assert (Hne : ready_to_run_namespaces_ resubmitted_AB ≠ [])
    by (vm_compute; discriminate).
  split; [exact reachable_resubmitted_AB|]. split; [exact Hne|].
  destruct (proj1 RunTaskWithLockAcquired_priority 0%nat
              (mkSystem resubmitted_AB ∅) 0%nat reachable_resubmitted_AB Hne)
    as (s' & id & ns & pt & ns1 & s'' & Hbegin & _ & _ & _ & _ & _ & Hmin & _).
  exists s', id, pt. split; [exact Hbegin|exact Hmin].
Defined.

(** [{A, B; A→B}] submitted twice to a fresh namespace. *)
Lemma SetTaskGraph_twice_witness :
  reachable 0 (mkSystem start ∅) ∧ well_formed_graph G_AB ∧
  ∃ ns1 ns2,
    namespaces_ (SetTaskGraph token G_AB start).1 !! token = Some ns1 ∧
    namespaces_ (SetTaskGraph token G_AB (SetTaskGraph token G_AB start).1).1
      !! token = Some ns2 ∧
    graph ns2 = graph ns1 ∧
    ready_to_run_tasks ns2 ≡ₚ ready_to_run_tasks ns1 ∧
    completed_tasks ns2 = [].
Proof.
  split; [exact reachable_start|]. split; [exact G_AB_well_formed|].
  destruct (SetTaskGraph_twice 0%nat (mkSystem start ∅) token G_AB
              reachable_start G_AB_well_formed)
    as (ns1 & ns2 & H1 & H2 & Hg & Hr & Hc & _ & _ & Hfresh & _).
  exists ns1, ns2. split_and!; try done.
  rewrite Hc. apply Hfresh. vm_compute. reflexivity.
Defined.

(** While the worker is in the body of [A], the namespace has the ready
    task [B] and is in [ready_to_run_namespaces_] once. *)
Lemma ready_to_run_namespaces_invariant_witness :
  reachable 0 (mkSystem running_A (<[0%nat := (token, A)]> ∅)) ∧
  NoDup (ready_to_run_namespaces_ running_A) ∧
  ∀ id, id ∈ ready_to_run_namespaces_ running_A ↔
        ∃ ns, namespaces_ running_A !! id = Some ns ∧
              ready_to_run_tasks ns ≠ [].
Proof.
  split; [exact reachable_running_A|].
  exact (ready_to_run_namespaces_invariant 0%nat
           (mkSystem running_A (<[0%nat := (token, A)]> ∅))
           reachable_running_A).
Defined.

(** The ready queue after the resubmission of [{A, B; A→B}]. *)
Lemma SetTaskGraph_ready_to_run_tasks_witness :
  ∃ ns', namespaces_ resubmitted_AB !! token = Some ns' ∧
    ready_to_run_tasks ns' ≡ₚ [mkPrioritizedTask A 0; mkPrioritizedTask B 1] ∧
    is_heap CompareTaskPriority (ready_to_run_tasks ns').
Proof.
  destruct (SetTaskGraph_ready_to_run_tasks token G_AB canceled_A)
    as (ns' & Hlook & Hperm & Hheap).
  exists ns'. split; [exact Hlook|]. split; [|exact Hheap].
  rewrite Hperm.
  assert (Hns : ns' = namespace_of resubmitted_AB).
  { unfold namespace_of, resubmitted_AB. by rewrite Hlook. }
  rewrite Hns. vm_compute. reflexivity.
Defined.

End Scenario.

(** * Further properties of the scheduler *)

(** ** The two halves of RunTaskWithLockAcquired *)

Section Run_structure.
Context `{HA : HeapAlgorithms}.

(** What a dispatch changes: the ready queue and the counter of the
    namespace taken, [ready_to_run_namespaces_] and the slot of the worker. *)
Lemma RunTaskWithLockAcquired_begin_inv thread_index s s' id task :
  RunTaskWithLockAcquired_begin thread_index s = Some (s', id, task) →
  ∃ ns ready1,
    namespaces_ s !! id = Some ns ∧
    ready_to_run_namespaces_ s ≠ [] ∧
    namespaces_ s' =
      <[id := mkTaskNamespace (graph ns) ready1 (completed_tasks ns)
                (uinc (num_running_tasks ns))]> (namespaces_ s) ∧
    running_tasks_ s' = <[thread_index := Some task]> (running_tasks_ s) ∧
    did_run_ s' = did_run_ s ∧
    next_namespace_id_ s' = next_namespace_id_ s.
Proof.
  unfold RunTaskWithLockAcquired_begin. intros Hbegin.
  repeat (simplify_option_eq || case_match); eexists _, _; done.
Qed.

Lemma fan_out_body_nodes id i f :
  fo_nodes (fan_out_body id i f) = decrement_dependencies i (fo_nodes f).
Proof.
  unfold fan_out_body, fo_nodes.
  destruct (decrement_dependencies i _ !! i) as [dn|] eqn:Hdn.
  - by destruct (node_dependencies dn =? 0).
  - unfold decrement_dependencies in *. apply lookup_ge_None in Hdn.
    rewrite length_alter in Hdn. apply lookup_ge_None in Hdn.
    apply list_eq. intros j. destruct (decide (j = i)) as [->|Hne].
    + by rewrite list_lookup_alter_eq, Hdn.
    + by rewrite list_lookup_alter_ne.
Qed.

(** The fan-out loop acts on the nodes as the loop that only decrements. *)
Lemma fan_out_nodes id task es f :
  fo_nodes (for_each_dependent fo_nodes (fan_out_body id) task es f) =
  for_each_dependent (λ ns, ns) decrement_dependencies task es (fo_nodes f).
Proof.
  revert f. induction es as [|e es IH]; intros f; simpl; [done|].
  destruct (decide (edge_task e = task)); [|apply IH].
  destruct (find_node (edge_dependent e) (fo_nodes f)); [|apply IH].
  by rewrite IH, fan_out_body_nodes.
Qed.

(** The fan-out loop changes neither the edges, nor the completed tasks, nor
    the counter of running tasks of the namespace. *)
Lemma fan_out_keeps id task es f :
  edges (graph (fo_namespace
     (for_each_dependent fo_nodes (fan_out_body id) task es f)))
    = edges (graph (fo_namespace f)) ∧
  completed_tasks (fo_namespace
     (for_each_dependent fo_nodes (fan_out_body id) task es f))
    = completed_tasks (fo_namespace f) ∧
  num_running_tasks (fo_namespace
     (for_each_dependent fo_nodes (fan_out_body id) task es f))
    = num_running_tasks (fo_namespace f).
Proof.
  apply (for_each_dependent_ind
    (λ f', edges (graph (fo_namespace f')) = edges (graph (fo_namespace f)) ∧
           completed_tasks (fo_namespace f') = completed_tasks (fo_namespace f) ∧
           num_running_tasks (fo_namespace f')
             = num_running_tasks (fo_namespace f))); [|done].
  intros i f' (He & Hc & Hn). unfold fan_out_body.
  destruct (decrement_dependencies i _ !! i) as [dn|]; [|done].
  by destruct (node_dependencies dn =? 0).
Qed.

(** What the second half of [RunTaskWithLockAcquired] changes. *)
Lemma RunTaskWithLockAcquired_end_inv thread_index id task s s' :
  RunTaskWithLockAcquired_end thread_index id task s = Some s' →
  ∃ ns ns',
    namespaces_ s !! id = Some ns ∧
    namespaces_ s' = <[id := ns']> (namespaces_ s) ∧
    edges (graph ns') = edges (graph ns) ∧
    nodes (graph ns') =
      imap (λ i n, dec_node
              (dependents_of (edges (graph ns)) (nodes (graph ns)) task i) n)
           (nodes (graph ns)) ∧
    completed_tasks ns' = completed_tasks ns ++ [task] ∧
    num_running_tasks ns' = udec (num_running_tasks ns) ∧
    running_tasks_ s' = <[thread_index := None]> (running_tasks_ s) ∧
    did_run_ s' = did_run_ s ∪ {[task]} ∧
    next_namespace_id_ s' = next_namespace_id_ s.
Proof.
  unfold RunTaskWithLockAcquired_end.
  destruct (namespaces_ s !! id) as [ns|] eqn:Hns; [|done]. cbn [mbind option_bind].
  intros [= <-]. eexists ns, _. split; [done|]. cbn.
  split; [reflexivity|].
  set (f0 := mkFanOut _ _ true).
  destruct (fan_out_keeps id task (edges (graph ns)) f0) as (He & Hc & Hn).
  pose proof (fan_out_nodes id task (edges (graph ns)) f0) as Hnodes.
  split_and!; try done.
  - etrans; [exact Hnodes|]. apply for_each_dependent_decrement.
  - cbn [completed_tasks]. by rewrite Hc.
Qed.

End Run_structure.

(** ** Workers inside task bodies *)

(** The number of workers that are inside the body of a task of the
    namespace [id]. *)
Definition workers_in (fr : gmap nat (nat * Task)) (id : nat) : nat :=
  length (filter (λ kv, kv.2.1 = id) (map_to_list fr)).

Lemma workers_in_insert (fr : gmap nat (nat * Task)) idx id task id' :
  fr !! idx = None →
  workers_in (<[idx := (id, task)]> fr) id' =
  ((if decide (id = id') then 1 else 0) + workers_in fr id')%nat.
Proof.
  intros Hnone. unfold workers_in.
  rewrite (map_to_list_insert fr idx (id, task) Hnone), filter_cons. simpl.
  destruct (decide (id = id')); done.
Qed.

Lemma workers_in_delete (fr : gmap nat (nat * Task)) idx id task id' :
  fr !! idx = Some (id, task) →
  workers_in fr id' =
  ((if decide (id = id') then 1 else 0) + workers_in (delete idx fr) id')%nat.
Proof.
  intros Hsome. unfold workers_in.
  rewrite <- (map_to_list_delete fr idx (id, task) Hsome), filter_cons. simpl.
  destruct (decide (id = id')); done.
Qed.

Lemma workers_in_le (fr : gmap nat (nat * Task)) id :
  (workers_in fr id ≤ size fr)%nat.
Proof.
  unfold workers_in. rewrite <- length_map_to_list. apply length_filter.
Qed.

Lemma size_frames_le (fr : gmap nat (nat * Task)) (slots : nat) :
  (∀ idx x, fr !! idx = Some x → (idx < slots)%nat) → (size fr ≤ slots)%nat.
Proof.
  intros Hfr. rewrite <- (size_dom (D := gset nat) fr).
  rewrite <- (size_set_seq (C := gset nat) 0 slots).
  apply subseteq_size. intros idx Hidx.
  apply elem_of_dom in Hidx as [x Hx]. apply elem_of_set_seq.
  specialize (Hfr idx x Hx). lia.
Qed.

(** The slots of [running_tasks_] mirror the workers inside task bodies. *)
Record slots_invariant (num_threads : nat) (sys : System) : Prop := {
  si_length :
    length (running_tasks_ (runner sys)) = (num_threads `max` 1)%nat;
  si_slots : ∀ idx, (idx < length (running_tasks_ (runner sys)))%nat →
    running_tasks_ (runner sys) !! idx = Some (snd <$> frames sys !! idx);
  si_frames : ∀ idx x, frames sys !! idx = Some x →
    (idx < length (running_tasks_ (runner sys)))%nat
}.

(** [num_running_tasks] counts the workers inside task bodies of the
    namespace, and no worker is inside a task body of a namespace that does
    not exist. *)
Definition counter_invariant (sys : System) : Prop :=
  ∀ id,
    match namespaces_ (runner sys) !! id with
    | Some ns => num_running_tasks ns = Z.of_nat (workers_in (frames sys) id)
    | None => workers_in (frames sys) id = 0%nat
    end.

Section Workers.
Context `{HA : HeapAlgorithms}.

Lemma slots_invariant_step num_threads sys sys' :
  step sys sys' → slots_invariant num_threads sys →
  slots_invariant num_threads sys'.
Proof.
  intros Hstep [Hlen Hslots Hframes].
  destruct Hstep as [r fr|r fr token g Htoken Hwf|r fr token Htoken
                    |r fr idx r' id task Hfr Hidx Hbegin
                    |r fr idx r' id task Hfr Hend]; cbn [runner frames] in *.
  - by split.
  - by split.
  - assert (Hrun : running_tasks_ (CollectCompletedTasks token [] r).1
                   = running_tasks_ r).
    { unfold CollectCompletedTasks. by repeat case_match. }
    split; cbn [runner frames]; rewrite ?Hrun; done.
  - destruct (RunTaskWithLockAcquired_begin_inv _ _ _ _ _ Hbegin)
      as (ns & ready1 & _ & _ & _ & Hrun & _).
    split; cbn [runner frames]; rewrite Hrun, ?length_insert.
    + done.
    + intros idx' Hidx'. destruct (decide (idx' = idx)) as [->|Hne].
      * by rewrite list_lookup_insert_eq, lookup_insert_eq.
      * rewrite list_lookup_insert_ne, lookup_insert_ne by done. auto.
    + intros idx' x. destruct (decide (idx' = idx)) as [->|Hne]; [done|].
      rewrite lookup_insert_ne by done. apply Hframes.
  - destruct (RunTaskWithLockAcquired_end_inv _ _ _ _ _ Hend)
      as (ns & ns' & _ & _ & _ & _ & _ & _ & Hrun & _).
    pose proof (Hframes _ _ Hfr) as Hidx.
    split; cbn [runner frames]; rewrite Hrun, ?length_insert.
    + done.
    + intros idx' Hidx'. destruct (decide (idx' = idx)) as [->|Hne].
      * by rewrite list_lookup_insert_eq, lookup_delete_eq.
      * rewrite list_lookup_insert_ne, lookup_delete_ne by done. auto.
    + intros idx' x. destruct (decide (idx' = idx)) as [->|Hne].
      * by rewrite lookup_delete_eq.
      * rewrite lookup_delete_ne by done. apply Hframes.
Qed.

Lemma slots_invariant_reachable num_threads sys :
  reachable num_threads sys → slots_invariant num_threads sys.
Proof.
  induction 1 as [|sys sys' _ IH Hstep]; [|by eapply slots_invariant_step].
  split; cbn [runner frames TaskGraphRunner_new running_tasks_].
  - apply length_replicate.
  - intros idx Hidx. rewrite length_replicate in Hidx.
    by rewrite lookup_replicate_2, lookup_empty.
  - intros idx x Hx. by rewrite lookup_empty in Hx.
Qed.

Lemma counter_invariant_step num_threads sys sys' :
  Z.of_nat (num_threads `max` 1) < UINT_MOD →
  step sys sys' → slots_invariant num_threads sys →
  counter_invariant sys → counter_invariant sys'.
Proof.
  intros Hbound Hstep Hslots Hcount.
  pose proof (slots_invariant_step _ _ _ Hstep Hslots) as Hslots'.
  destruct Hstep as [r fr|r fr token g Htoken Hwf|r fr token Htoken
                    |r fr idx r' id task Hfr Hidx Hbegin
                    |r fr idx r' id task Hfr Hend];
    unfold counter_invariant in *; cbn [runner frames] in *; intros id'.
  - apply Hcount.
  - specialize (Hcount id'). destruct (decide (id' = token)) as [->|Hne].
    + rewrite SetTaskGraph_lookup, SetTaskGraph_namespace_num_running.
      destruct (namespaces_ r !! token); simpl; [done|]. by rewrite Hcount.
    + by rewrite SetTaskGraph_lookup_ne.
  - specialize (Hcount id'). unfold CollectCompletedTasks.
    destruct (namespaces_ r !! token) as [ns|] eqn:Hns; [|done].
    destruct (HasFinishedRunningTasksInNamespace _) eqn:Hfin;
      cbn [negb fst namespaces_].
    + apply HasFinishedRunningTasksInNamespace_spec in Hfin as (_ & Hzero & _).
      cbn in Hzero. destruct (decide (id' = token)) as [->|Hne].
      * rewrite lookup_delete_eq. rewrite Hns in Hcount. lia.
      * by rewrite lookup_delete_ne.
    + destruct (decide (id' = token)) as [->|Hne].
      * rewrite lookup_insert_eq. by rewrite Hns in Hcount.
      * by rewrite lookup_insert_ne.
  - destruct (RunTaskWithLockAcquired_begin_inv _ _ _ _ _ Hbegin)
      as (ns & ready1 & Hns & _ & Hm & _).
    rewrite Hm, (workers_in_insert fr idx id task id' Hfr).
    pose proof (Hcount id') as Hc.
    destruct (decide (id' = id)) as [->|Hne].
    + rewrite lookup_insert_eq, decide_True by done. cbn.
      rewrite Hns in Hc. rewrite Hc. unfold uinc.
      assert (S (workers_in fr id) ≤ num_threads `max` 1)%nat.
      { pose proof (workers_in_le (<[idx := (id, task)]> fr) id) as Hle.
        rewrite (workers_in_insert fr idx id task id Hfr), decide_True in Hle
          by done.
        pose proof (size_frames_le _ _ (si_frames _ _ Hslots')) as Hsz.
        rewrite (si_length _ _ Hslots') in Hsz. cbn in Hsz. lia. }
      rewrite Z.mod_small; lia.
    + rewrite lookup_insert_ne, decide_False by done. exact Hc.
  - destruct (RunTaskWithLockAcquired_end_inv _ _ _ _ _ Hend)
      as (ns & ns' & Hns & Hm & _ & _ & _ & Hnum & _).
    rewrite Hm. pose proof (Hcount id') as Hc.
    rewrite (workers_in_delete fr idx id task id' Hfr) in Hc.
    destruct (decide (id' = id)) as [->|Hne].
    + rewrite lookup_insert_eq, Hnum. rewrite Hns, decide_True in Hc by done.
      rewrite Hc. unfold udec.
      assert (workers_in fr id ≤ num_threads `max` 1)%nat.
      { pose proof (workers_in_le fr id) as Hle.
        pose proof (size_frames_le _ _ (si_frames _ _ Hslots)) as Hsz.
        rewrite (si_length _ _ Hslots) in Hsz. cbn in Hsz. lia. }
      pose proof (workers_in_delete fr idx id task id Hfr) as Hd.
      rewrite decide_True in Hd by done.
      rewrite Z.mod_small; lia.
    + rewrite lookup_insert_ne by done.
      by rewrite decide_False in Hc by done.
Qed.

Lemma counter_invariant_reachable num_threads sys :
  Z.of_nat (num_threads `max` 1) < UINT_MOD →
  reachable num_threads sys → counter_invariant sys.
Proof.
  intros Hbound. induction 1 as [|sys sys' Hreach IH Hstep].
  - intros id. cbn. rewrite lookup_empty. unfold workers_in.
    by rewrite map_to_list_empty.
  - eapply counter_invariant_step; [done..|by apply slots_invariant_reachable|done].
Qed.

End Workers.

(** ** Ready tasks are nodes of the graph *)

(** Every entry of a ready queue is the task and priority of a node of the
    graph of its namespace. *)
Definition ready_are_nodes (s : TaskGraphRunner) : Prop :=
  ∀ id ns pt, namespaces_ s !! id = Some ns → pt ∈ ready_to_run_tasks ns →
    pt ∈ to_PrioritizedTask <$> nodes (graph ns).

Lemma to_PrioritizedTask_decrement i (ns : list Node) :
  to_PrioritizedTask <$> decrement_dependencies i ns
  = to_PrioritizedTask <$> ns.
Proof.
  apply list_eq. intros j. unfold decrement_dependencies.
  rewrite !list_lookup_fmap. destruct (decide (j = i)) as [->|Hne].
  - rewrite list_lookup_alter_eq. by destruct (ns !! i).
  - by rewrite list_lookup_alter_ne.
Qed.

Section Ready_are_nodes.
Context `{HA : HeapAlgorithms}.

Lemma fan_out_body_ready_are_nodes s id ns i f :
  fan_out_invariant s id ns f →
  (∀ pt, pt ∈ ready_to_run_tasks (fo_namespace f) →
         pt ∈ to_PrioritizedTask <$> fo_nodes f) →
  ∀ pt, pt ∈ ready_to_run_tasks (fo_namespace (fan_out_body id i f)) →
        pt ∈ to_PrioritizedTask <$> fo_nodes (fan_out_body id i f).
Proof.
  intros Hinv Hready pt. rewrite fan_out_body_nodes, to_PrioritizedTask_decrement.
  unfold fan_out_body.
  destruct (decrement_dependencies i _ !! i) as [dn|] eqn:Hdn; [|apply Hready].
  destruct (node_dependencies dn =? 0); cbn [fo_namespace ready_to_run_tasks];
    [|apply Hready].
  rewrite push_heap_perm by (done || apply (fo_tasks_heap _ _ _ _ Hinv)).
  rewrite elem_of_app, list_elem_of_singleton. intros [Hpt| ->]; [by apply Hready|].
  rewrite <- (to_PrioritizedTask_decrement i).
  apply list_elem_of_fmap. exists dn. split; [done|].
  by eapply list_elem_of_lookup_2.
Qed.

Lemma ready_are_nodes_step sys sys' :
  step sys sys' → ready_invariant (runner sys) →
  ready_are_nodes (runner sys) → ready_are_nodes (runner sys').
Proof.
  intros Hstep Hinv Hnodes.
  destruct Hstep as [r fr|r fr token g Htoken Hwf|r fr token Htoken
                    |r fr idx r' id task Hfr Hidx Hbegin
                    |r fr idx r' id task Hfr Hend];
    unfold ready_are_nodes in *; cbn [runner] in *; intros id' ns' pt.
  - apply Hnodes.
  - destruct (decide (id' = token)) as [->|Hne].
    + rewrite SetTaskGraph_lookup. intros [= <-].
      rewrite SetTaskGraph_namespace_ready, SetTaskGraph_namespace_graph.
      rewrite make_heap_perm by done. cbn [nodes].
      rewrite !list_elem_of_fmap. intros (n & -> & Hn).
      apply list_elem_of_filter in Hn as [_ Hn]. eauto.
    + rewrite SetTaskGraph_lookup_ne by done. apply Hnodes.
  - unfold CollectCompletedTasks.
    destruct (namespaces_ r !! token) as [ns|] eqn:Hns; [|apply Hnodes].
    destruct (HasFinishedRunningTasksInNamespace _); cbn [negb fst namespaces_].
    + destruct (decide (id' = token)) as [->|Hne].
      * by rewrite lookup_delete_eq.
      * rewrite lookup_delete_ne by done. apply Hnodes.
    + destruct (decide (id' = token)) as [->|Hne].
      * rewrite lookup_insert_eq. intros [= <-]. cbn.
        by apply (Hnodes token ns pt).
      * rewrite lookup_insert_ne by done. apply Hnodes.
  - assert (Hne : ready_to_run_namespaces_ r ≠ []).
    { by destruct (RunTaskWithLockAcquired_begin_inv _ _ _ _ _ Hbegin)
        as (? & ? & _ & ? & _). }
    destruct (RunTaskWithLockAcquired_begin_spec idx r Hinv Hne)
      as (id0 & l & ns & pt0 & rest & l' & rest' & _ & Hns & Hr & _ & _
          & Hrest & _ & Heq).
    rewrite Heq in Hbegin. injection Hbegin as <- <- <-. cbn [namespaces_].
    destruct (decide (id' = id0)) as [->|Hne'].
    + rewrite lookup_insert_eq. intros [= <-]. cbn. rewrite Hrest.
      intros Hpt. apply (Hnodes id0 ns pt Hns). rewrite Hr. by right.
    + rewrite lookup_insert_ne by done. apply Hnodes.
  - revert Hend. unfold RunTaskWithLockAcquired_end.
    destruct (namespaces_ r !! id) as [ns|] eqn:Hns; [|done].
    cbn [mbind option_bind]. intros [= <-]. cbn [namespaces_].
    destruct (decide (id' = id)) as [->|Hne'].
    + rewrite lookup_insert_eq. intros [= <-].
      cbn [ready_to_run_tasks graph].
      set (f0 := mkFanOut _ _ true).
      assert (Hf : fan_out_invariant r id ns
                (for_each_dependent fo_nodes (fan_out_body id) task
                   (edges (graph ns)) f0) ∧
              ∀ pt, pt ∈ ready_to_run_tasks (fo_namespace
                      (for_each_dependent fo_nodes (fan_out_body id) task
                         (edges (graph ns)) f0)) →
                    pt ∈ to_PrioritizedTask <$> fo_nodes
                      (for_each_dependent fo_nodes (fan_out_body id) task
                         (edges (graph ns)) f0)).
      { apply (for_each_dependent_ind
          (λ f, fan_out_invariant r id ns f ∧
                ∀ pt, pt ∈ ready_to_run_tasks (fo_namespace f) →
                      pt ∈ to_PrioritizedTask <$> fo_nodes f)).
        - intros i f [Hfi Hfr']. split; [by apply fan_out_body_invariant|].
          by apply (fan_out_body_ready_are_nodes r id ns).
        - split.
          + split; cbn.
            * by apply (inv_tasks_heap r Hinv id).
            * apply (inv_NoDup r Hinv).
            * intros id''. rewrite (inv_ready r Hinv).
              destruct (decide (id'' = id)) as [->|Hne''].
              -- rewrite Hns. split.
                 ++ intros (ns0 & [= <-] & ?). by left.
                 ++ intros [[_ ?]|[? _]]; [eauto|done].
              -- split; [by right|]. intros [[? _]|[_ ?]]; done.
            * done.
          + intros pt'. cbn. apply (Hnodes id ns pt' Hns). }
      apply Hf.
    + rewrite lookup_insert_ne by done. apply Hnodes.
Qed.

Lemma ready_are_nodes_reachable num_threads sys :
  reachable num_threads sys → ready_are_nodes (runner sys).
Proof.
  induction 1 as [|sys sys' Hreach IH Hstep].
  - intros id ns pt Hns. cbn in Hns. by rewrite lookup_empty in Hns.
  - eapply ready_are_nodes_step; [done| |done].
    by eapply ready_invariant_reachable.
Qed.

End Ready_are_nodes.

Section Further_invariants.
Context `{HA : HeapAlgorithms}.

(** X1: in every reachable state the ready queue of every namespace is a
    heap for [CompareTaskPriority] and [ready_to_run_namespaces_] is a heap
    for [CompareTaskNamespacePriority], so that every call of
    [std::pop_heap] and [std::push_heap] finds the heap it requires. *)
Theorem ready_queues_are_heaps num_threads sys :
  reachable num_threads sys →
  (∀ id ns, namespaces_ (runner sys) !! id = Some ns →
     is_heap CompareTaskPriority (ready_to_run_tasks ns)) ∧
  is_heap (CompareTaskNamespacePriority (namespaces_ (runner sys)))
          (ready_to_run_namespaces_ (runner sys)).
Proof.
  intros Hreach. pose proof (ready_invariant_reachable _ _ Hreach) as Hinv.
  split; [apply (inv_tasks_heap _ Hinv)|apply (inv_namespaces_heap _ Hinv)].
Qed.

(** X2: [running_tasks_] has [max(num_threads, 1)] slots in every reachable
    state, and the slot of a worker holds a task exactly while the worker is
    between the dispatch of that task and the end of its body; the slots of
    all other workers are [NULL]. *)
Theorem running_tasks_mirror_workers num_threads sys :
  reachable num_threads sys →
  length (running_tasks_ (runner sys)) = (num_threads `max` 1)%nat ∧
  ∀ idx, (idx < length (running_tasks_ (runner sys)))%nat →
    running_tasks_ (runner sys) !! idx = Some (snd <$> frames sys !! idx).
Proof.
  intros Hreach. destruct (slots_invariant_reachable _ _ Hreach). by split.
Qed.

(** X3: when the number of slots fits the counter, [num_running_tasks] of
    every namespace is the number of workers inside the body of a task taken
    from that namespace, and no worker is inside the body of a task of a
    namespace that does not exist. *)
Theorem num_running_tasks_counts_workers num_threads sys :
  Z.of_nat (num_threads `max` 1) < UINT_MOD →
  reachable num_threads sys →
  ∀ id,
    match namespaces_ (runner sys) !! id with
    | Some ns => num_running_tasks ns = Z.of_nat (workers_in (frames sys) id)
    | None => workers_in (frames sys) id = 0%nat
    end.
Proof. intros Hbound Hreach. by apply (counter_invariant_reachable num_threads). Qed.

Lemma workers_in_pos (fr : gmap nat (nat * Task)) idx id task :
  fr !! idx = Some (id, task) → (0 < workers_in fr id)%nat.
Proof.
  intros Hfr. rewrite (workers_in_delete fr idx id task id Hfr).
  rewrite decide_True by done. lia.
Qed.

(** X4: the namespace whose task a worker is running stays in the map while
    the lock is released: its counter is positive, so
    [CollectCompletedTasks] does not erase it, and the second half of
    [RunTaskWithLockAcquired] finds it. *)
Theorem running_namespace_stays num_threads sys idx id task :
  Z.of_nat (num_threads `max` 1) < UINT_MOD →
  reachable num_threads sys →
  frames sys !! idx = Some (id, task) →
  ∃ ns, namespaces_ (runner sys) !! id = Some ns ∧
        0 < num_running_tasks ns ∧
        (∀ out, is_Some
           (namespaces_ (CollectCompletedTasks id out (runner sys)).1 !! id)) ∧
        is_Some (RunTaskWithLockAcquired_end idx id task (runner sys)).
Proof.
  intros Hbound Hreach Hfr.
  pose proof (counter_invariant_reachable _ _ Hbound Hreach id) as Hcount.
  pose proof (workers_in_pos _ _ _ _ Hfr) as Hpos.
  destruct (namespaces_ (runner sys) !! id) as [ns|] eqn:Hns; [|lia].
  exists ns. split_and!; [done|lia| |].
  - intros out. unfold CollectCompletedTasks. rewrite Hns.
    assert (Hfin : HasFinishedRunningTasksInNamespace
              (mkTaskNamespace (graph ns) (ready_to_run_tasks ns) out
                 (num_running_tasks ns)) = false).
    { destruct (HasFinishedRunningTasksInNamespace _) eqn:Hfin; [|done].
      apply HasFinishedRunningTasksInNamespace_spec in Hfin as (_ & Hz & _).
      cbn in Hz. lia. }
    rewrite Hfin. cbn. rewrite lookup_insert_eq. eauto.
  - unfold RunTaskWithLockAcquired_end. rewrite Hns. cbn. eauto.
Qed.

End Further_invariants.

Section Whole_run.
Context `{HA : HeapAlgorithms}.

Lemma udec_uinc x : 0 ≤ x < UINT_MOD → udec (uinc x) = x.
Proof.
  intros Hx. unfold udec, uinc.
  destruct (decide (x = UINT_MOD - 1)) as [->|Hne].
  - replace (UINT_MOD - 1 + 1) with (1 * UINT_MOD) by lia.
    rewrite Z.mod_mul by done. by vm_compute.
  - rewrite (Z.mod_small (x + 1)) by lia.
    replace (x + 1 - 1) with x by lia. apply Z.mod_small. lia.
Qed.

(** A call of [RunTaskWithLockAcquired] during which no other thread takes
    the lock, seen as one operation. *)
Lemma RunTaskWithLockAcquired_effect num_threads sys idx :
  Z.of_nat (num_threads `max` 1) < UINT_MOD →
  reachable num_threads sys →
  frames sys !! idx = None →
  (idx < length (running_tasks_ (runner sys)))%nat →
  ready_to_run_namespaces_ (runner sys) ≠ [] →
  ∃ s'' id ns ns'' pt,
    RunTaskWithLockAcquired idx (runner sys) = Some s'' ∧
    namespaces_ (runner sys) !! id = Some ns ∧
    head (ready_to_run_tasks ns) = Some pt ∧
    namespaces_ s'' !! id = Some ns'' ∧
    completed_tasks ns'' = completed_tasks ns ++ [pt_task pt] ∧
    num_running_tasks ns'' = num_running_tasks ns ∧
    edges (graph ns'') = edges (graph ns) ∧
    running_tasks_ s'' = running_tasks_ (runner sys) ∧
    did_run_ s'' = did_run_ (runner sys) ∪ {[pt_task pt]} ∧
    next_namespace_id_ s'' = next_namespace_id_ (runner sys) ∧
    ∀ id', id' ≠ id →
      namespaces_ s'' !! id' = namespaces_ (runner sys) !! id'.
Proof.
  intros Hbound Hreach Hfr Hidx Hne.
  pose proof (ready_invariant_reachable _ _ Hreach) as Hinv.
  destruct (RunTaskWithLockAcquired_begin_min idx _ Hinv Hne)
    as (s' & id & ns & pt & ns1 & Hbegin & Hns & _ & Hhead & _).
  destruct (RunTaskWithLockAcquired_begin_inv _ _ _ _ _ Hbegin)
    as (ns0 & ready1 & Hns0 & _ & Hm' & Hrun' & Hdid' & Hnext').
  rewrite Hns in Hns0. injection Hns0 as <-.
  destruct (RunTaskWithLockAcquired_runs _ _ _ _ _ Hbegin) as (s'' & Hrun & _).
  assert (Hend : RunTaskWithLockAcquired_end idx id (pt_task pt) s' = Some s'').
  { unfold RunTaskWithLockAcquired in Hrun. by rewrite Hbegin in Hrun. }
  destruct (RunTaskWithLockAcquired_end_inv _ _ _ _ _ Hend)
    as (ns1' & ns'' & Hns1' & Hm'' & Hedges & _ & Hcompl & Hnum & Hrun''
        & Hdid'' & Hnext'').
  rewrite Hm', lookup_insert_eq in Hns1'. injection Hns1' as <-.
  cbn in Hedges, Hcompl, Hnum.
  exists s'', id, ns, ns'', pt. split_and!; try done.
  - rewrite Hm''. apply lookup_insert_eq.
  - rewrite Hnum. apply udec_uinc.
    pose proof (counter_invariant_reachable _ _ Hbound Hreach id) as Hcount.
    rewrite Hns in Hcount. rewrite Hcount.
    pose proof (slots_invariant_reachable _ _ Hreach) as Hslots.
    pose proof (workers_in_le (frames sys) id) as Hle.
    pose proof (size_frames_le _ _ (si_frames _ _ Hslots)) as Hsz.
    rewrite (si_length _ _ Hslots) in Hsz. lia.
  - rewrite Hrun'', Hrun', list_insert_insert_eq.
    apply list_insert_id.
    pose proof (slots_invariant_reachable _ _ Hreach) as Hslots.
    by rewrite (si_slots _ _ Hslots idx Hidx), Hfr.
  - by rewrite Hdid'', Hdid'.
  - by rewrite Hnext'', Hnext'.
  - intros id' Hne'. by rewrite Hm'', Hm', !lookup_insert_ne.
Qed.

(** X5: in a reachable state with a ready namespace, a worker whose slot is
    free runs one task by [RunTaskWithLockAcquired] (no other thread taking
    the lock meanwhile): the task is the first of the ready queue of its
    namespace; afterwards it is the last entry of [completed_tasks] of that
    namespace and is marked as run, while [num_running_tasks], the edges of
    the graph, [running_tasks_] and all other namespaces are as before. *)
Theorem RunTaskWithLockAcquired_whole num_threads sys idx :
  Z.of_nat (num_threads `max` 1) < UINT_MOD →
  reachable num_threads sys →
  frames sys !! idx = None →
  (idx < length (running_tasks_ (runner sys)))%nat →
  ready_to_run_namespaces_ (runner sys) ≠ [] →
  ∃ s'' id ns ns'' pt,
    RunTaskWithLockAcquired idx (runner sys) = Some s'' ∧
    namespaces_ (runner sys) !! id = Some ns ∧
    head (ready_to_run_tasks ns) = Some pt ∧
    namespaces_ s'' !! id = Some ns'' ∧
    completed_tasks ns'' = completed_tasks ns ++ [pt_task pt] ∧
    num_running_tasks ns'' = num_running_tasks ns ∧
    edges (graph ns'') = edges (graph ns) ∧
    running_tasks_ s'' = running_tasks_ (runner sys) ∧
    did_run_ s'' = did_run_ (runner sys) ∪ {[pt_task pt]} ∧
    next_namespace_id_ s'' = next_namespace_id_ (runner sys) ∧
    ∀ id', id' ≠ id →
      namespaces_ s'' !! id' = namespaces_ (runner sys) !! id'.
Proof. apply RunTaskWithLockAcquired_effect. Qed.

(** X6: in a reachable state in which slot 0 is free, [RunTaskForTesting]
    returns false, and leaves the state as it is, exactly when no namespace
    has a ready task; otherwise it returns true after one task has run and
    has been appended to [completed_tasks] of its namespace. *)
Theorem RunTaskForTesting_spec num_threads sys :
  Z.of_nat (num_threads `max` 1) < UINT_MOD →
  reachable num_threads sys →
  frames sys !! 0%nat = None →
  ∃ s' b,
    RunTaskForTesting (runner sys) = Some (s', b) ∧
    (b = false ↔
       ∀ id ns, namespaces_ (runner sys) !! id = Some ns →
                ready_to_run_tasks ns = []) ∧
    (b = false → s' = runner sys) ∧
    (b = true →
       ∃ id ns ns' task,
         namespaces_ (runner sys) !! id = Some ns ∧
         namespaces_ s' !! id = Some ns' ∧
         completed_tasks ns' = completed_tasks ns ++ [task] ∧
         task ∈ did_run_ s').
Proof.
  intros Hbound Hreach Hfr.
  pose proof (ready_invariant_reachable _ _ Hreach) as Hinv.
  unfold RunTaskForTesting. case_bool_decide as Hrrn.
  - exists (runner sys), false. split_and!; try done.
    split; [|done]. intros _ id ns Hns.
    destruct (ready_to_run_tasks ns) eqn:Hr; [done|].
    assert (id ∈ ready_to_run_namespaces_ (runner sys)) as Hin.
    { apply (inv_ready _ Hinv). exists ns. by rewrite Hr. }
    rewrite Hrrn in Hin. by apply elem_of_nil in Hin.
  - assert (Hidx : (0 < length (running_tasks_ (runner sys)))%nat).
    { rewrite (si_length _ _ (slots_invariant_reachable _ _ Hreach)). lia. }
    destruct (RunTaskWithLockAcquired_effect _ _ 0%nat Hbound Hreach Hfr Hidx Hrrn)
      as (s'' & id & ns & ns'' & pt & Hrun & Hns & Hhead & Hns'' & Hcompl & _
          & _ & _ & Hdid & _).
    rewrite Hrun. exists s'', true. split_and!; try done.
    + split; [done|]. intros Hall. rewrite (Hall id ns Hns) in Hhead. done.
    + intros _. exists id, ns, ns'', (pt_task pt). split_and!; try done.
      rewrite Hdid. apply elem_of_union. right. by apply elem_of_singleton.
Qed.

End Whole_run.

(** ** Collecting *)

Section Collecting.
Context `{HA : HeapAlgorithms}.

(** X7: a second [CollectCompletedTasks] right after a first one hands back
    no task and changes nothing, whether the first one erased the namespace
    or not. *)
Theorem CollectCompletedTasks_twice token s :
  CollectCompletedTasks token [] (CollectCompletedTasks token [] s).1 =
  ((CollectCompletedTasks token [] s).1, []).
Proof.
  unfold CollectCompletedTasks at 2 3.
  destruct (namespaces_ s !! token) as [ns|] eqn:Hns.
  - destruct (HasFinishedRunningTasksInNamespace _) eqn:Hfin; cbn [negb fst].
    + unfold CollectCompletedTasks. cbn [namespaces_].
      by rewrite lookup_delete_eq.
    + unfold CollectCompletedTasks. cbn [namespaces_].
      rewrite lookup_insert_eq. cbn. rewrite Hfin. cbn.
      by rewrite insert_insert_eq.
  - cbn [fst]. unfold CollectCompletedTasks. by rewrite Hns.
Qed.

(** X8: submitting a graph without nodes for a token that has no namespace
    and collecting at once hands back no task and leaves the map of
    namespaces, the running tasks and the [did_run_] flags as they were: the
    namespace that [SetTaskGraph] created is erased again. *)
Theorem empty_graph_then_collect token g s :
  namespaces_ s !! token = None → nodes g = [] →
  (CollectCompletedTasks token [] (SetTaskGraph token g s).1).2 = [] ∧
  namespaces_ (CollectCompletedTasks token [] (SetTaskGraph token g s).1).1
    = namespaces_ s ∧
  running_tasks_ (CollectCompletedTasks token [] (SetTaskGraph token g s).1).1
    = running_tasks_ s ∧
  did_run_ (CollectCompletedTasks token [] (SetTaskGraph token g s).1).1
    = did_run_ s.
Proof.
  intros Hnone Hnodes.
  set (ns := SetTaskGraph_namespace s new_TaskNamespace g).
  assert (Hlook : namespaces_ (SetTaskGraph token g s).1 !! token = Some ns).
  { rewrite SetTaskGraph_lookup. by rewrite Hnone. }
  assert (Hdisc : discount_completed (completed_tasks new_TaskNamespace) g
                  = []).
  { unfold discount_completed. by rewrite Hnodes. }
  assert (Hg : nodes (graph ns) = []).
  { unfold ns. rewrite SetTaskGraph_namespace_graph. exact Hdisc. }
  assert (Hr : ready_to_run_tasks ns = []).
  { unfold ns. rewrite SetTaskGraph_namespace_ready, Hdisc, filter_nil.
    apply Permutation_nil_r. by rewrite make_heap_perm. }
  assert (Hc : completed_tasks ns = []).
  { unfold ns. rewrite SetTaskGraph_namespace_completed, Hdisc. done. }
  assert (Hn : num_running_tasks ns = 0).
  { unfold ns. by rewrite SetTaskGraph_namespace_num_running. }
  unfold CollectCompletedTasks. rewrite Hlook.
  assert (Hfin : HasFinishedRunningTasksInNamespace
            (mkTaskNamespace (graph ns) (ready_to_run_tasks ns) []
               (num_running_tasks ns)) = true).
  { apply HasFinishedRunningTasksInNamespace_spec. by cbn. }
  rewrite Hfin. cbn [negb fst snd namespaces_ running_tasks_ did_run_].
  split_and!; [done| |done..].
  change (namespaces_ (SetTaskGraph token g s).1)
    with (<[token := SetTaskGraph_namespace s
                     (default new_TaskNamespace (namespaces_ s !! token)) g]>
            (delete token (namespaces_ s))).
  by rewrite delete_insert_eq, delete_delete_eq, delete_id.
Qed.

End Collecting.

(** ** What is dispatched, and what a finished task changes *)

Section Dispatch_and_fan_out.
Context `{HA : HeapAlgorithms}.

(** X9: every task that [RunTaskWithLockAcquired] dispatches in a reachable
    state is the task of a node of the current graph of its namespace, with
    the priority of that node; a task that the last [SetTaskGraph] of the
    namespace left out is not dispatched. *)
Theorem dispatched_task_is_node num_threads sys idx s' id task :
  reachable num_threads sys →
  RunTaskWithLockAcquired_begin idx (runner sys) = Some (s', id, task) →
  ∃ ns n pt,
    namespaces_ (runner sys) !! id = Some ns ∧
    head (ready_to_run_tasks ns) = Some pt ∧
    n ∈ nodes (graph ns) ∧
    node_task n = task ∧ pt_task pt = task ∧
    node_priority n = pt_priority pt.
Proof.
  intros Hreach Hbegin.
  pose proof (ready_invariant_reachable _ _ Hreach) as Hinv.
  pose proof (ready_are_nodes_reachable _ _ Hreach) as Hnodes.
  assert (Hne : ready_to_run_namespaces_ (runner sys) ≠ []).
  { by destruct (RunTaskWithLockAcquired_begin_inv _ _ _ _ _ Hbegin)
      as (? & ? & _ & ? & _). }
  destruct (RunTaskWithLockAcquired_begin_spec idx _ Hinv Hne)
    as (id0 & l & ns & pt & r & l' & r' & _ & Hns & Hr & _ & _ & _ & _ & Heq).
  rewrite Heq in Hbegin. injection Hbegin as _ <- <-.
  assert (Hpt : pt ∈ to_PrioritizedTask <$> nodes (graph ns)).
  { apply (Hnodes id0 ns pt Hns). rewrite Hr. by left. }
  apply list_elem_of_fmap in Hpt as (n & -> & Hn).
  exists ns, n, (to_PrioritizedTask n). split_and!; try done.
  by rewrite Hr.
Qed.

(** X10: when a task finishes in a reachable state, the second half of
    [RunTaskWithLockAcquired] keeps the edges of the graph of its namespace
    and the task and priority of every node, and decrements the dependency
    count of every node once for each edge from the finished task to the
    task of the node; the task is appended to [completed_tasks] and the
    other namespaces are not touched. *)
Theorem finished_task_fan_out num_threads sys idx id task s' :
  reachable num_threads sys →
  RunTaskWithLockAcquired_end idx id task (runner sys) = Some s' →
  ∃ ns ns',
    namespaces_ (runner sys) !! id = Some ns ∧
    namespaces_ s' !! id = Some ns' ∧
    edges (graph ns') = edges (graph ns) ∧
    length (nodes (graph ns')) = length (nodes (graph ns)) ∧
    (∀ i n, nodes (graph ns) !! i = Some n →
       nodes (graph ns') !! i =
       Some (mkNode (node_task n) (node_priority n)
               (Nat.iter
                  (length (filter (λ e, edge_task e = task ∧
                                        edge_dependent e = node_task n)
                                  (edges (graph ns))))
                  udec (node_dependencies n)))) ∧
    completed_tasks ns' = completed_tasks ns ++ [task] ∧
    (∀ id', id' ≠ id →
       namespaces_ s' !! id' = namespaces_ (runner sys) !! id').
Proof.
  intros Hreach Hend.
  destruct (RunTaskWithLockAcquired_end_inv _ _ _ _ _ Hend)
    as (ns & ns' & Hns & Hm & Hedges & Hnodes & Hcompl & _).
  pose proof (graphs_NoDup_reachable _ _ Hreach id ns Hns) as Hnd.
  exists ns, ns'. split_and!; try done.
  - rewrite Hm. apply lookup_insert_eq.
  - by rewrite Hnodes, length_imap.
  - intros i n Hi. rewrite Hnodes, list_lookup_imap, Hi. cbn.
    unfold dec_node, dependents_of. do 2 f_equal.
    f_equal. f_equal.
    apply list_filter_iff. intros e. split.
    + intros [He Hf]. split; [done|].
      destruct (find_node_Some _ _ _ Hf) as (m & Hm' & Ht & _). congruence.
    + intros [He Hd]. split; [done|]. rewrite Hd.
      by apply find_node_NoDup.
  - intros id' Hne. by rewrite Hm, lookup_insert_ne.
Qed.

End Dispatch_and_fan_out.

(** ** Tokens *)

Section Tokens.
Context `{HA : HeapAlgorithms}.




End Tokens.

(** ** What SetTaskGraph hands back, and what is kept *)

Lemma remove_old_node_submseteq t (old : list Node) :
  remove_old_node t old ⊆+ old.
Proof.
  unfold remove_old_node.
  destruct (find_node t old) as [i|] eqn:Hfind; [|reflexivity].
  destruct (find_node_Some _ _ _ Hfind) as (n & Hn & _).
  transitivity (n :: swap_remove i old); [by apply submseteq_cons|].
  apply Permutation_submseteq. symmetry. by apply swap_remove_perm.
Qed.

Lemma build_ready_fst_submseteq s new old ready :
  (build_ready s new old ready).1 ⊆+ old.
Proof.
  rewrite build_ready_fst. revert old.
  induction new as [|n new IH]; intros old; cbn [foldl]; [reflexivity|].
  etrans; [apply IH|apply remove_old_node_submseteq].
Qed.

Section Handed_back.
Context `{HA : HeapAlgorithms}.

(** X12: the graph that [SetTaskGraph] leaves in the caller's [*graph] has the
    edges of the previous graph of the namespace, and its nodes are nodes of
    the previous graph: for every task, as many as the previous graph has
    beyond the new graph. The tasks appended to [completed_tasks] are the
    tasks of these nodes that have neither finished running nor are
    running, in the order of the nodes. *)
Theorem SetTaskGraph_hands_back token g s :
  edges (SetTaskGraph token g s).2
    = edges (graph (default new_TaskNamespace (namespaces_ s !! token))) ∧
  nodes (SetTaskGraph token g s).2
    ⊆+ nodes (graph (default new_TaskNamespace (namespaces_ s !! token))) ∧
  (∀ t, count_occ Nat.eq_dec (node_task <$> nodes (SetTaskGraph token g s).2) t
        = (count_occ Nat.eq_dec
             (node_task <$> nodes (graph (default new_TaskNamespace
                                            (namespaces_ s !! token)))) t
           - count_occ Nat.eq_dec (node_task <$> nodes g) t)%nat) ∧
  ∃ ns', namespaces_ (SetTaskGraph token g s).1 !! token = Some ns' ∧
    completed_tasks ns' =
      completed_tasks (default new_TaskNamespace (namespaces_ s !! token)) ++
      filter (λ t, HasFinishedRunning (did_run_ s) t = false ∧
                   is_running (running_tasks_ s) t = false)
             (node_task <$> nodes (SetTaskGraph token g s).2).
Proof.
  cbn [snd SetTaskGraph]. unfold SetTaskGraph_out. cbn [edges nodes].
  split_and!.
  - done.
  - apply build_ready_fst_submseteq.
  - intros t. by rewrite build_ready_fst_count, discount_completed_tasks.
  - eexists. split; [apply SetTaskGraph_lookup|].
    rewrite SetTaskGraph_namespace_completed. f_equal.
    unfold canceled_tasks. apply list_filter_iff. intros t.
    unfold finished_or_running. rewrite orb_false_iff. done.
Qed.

(** X13: [SetTaskGraph] and the two halves of [RunTaskWithLockAcquired] never
    remove a namespace and never remove an entry of [completed_tasks]: every
    namespace is still there afterwards, with a queue of completed tasks
    that starts with the queue before. Only [CollectCompletedTasks] takes
    completed tasks away. *)
Theorem completed_tasks_are_kept id ns :
  (∀ token g s, namespaces_ s !! id = Some ns →
     ∃ ns', namespaces_ (SetTaskGraph token g s).1 !! id = Some ns' ∧
            completed_tasks ns `prefix_of` completed_tasks ns') ∧
  (∀ thread_index s s' id' task,
     namespaces_ s !! id = Some ns →
     RunTaskWithLockAcquired_begin thread_index s = Some (s', id', task) →
     ∃ ns', namespaces_ s' !! id = Some ns' ∧
            completed_tasks ns' = completed_tasks ns) ∧
  (∀ thread_index s s' id' task,
     namespaces_ s !! id = Some ns →
     RunTaskWithLockAcquired_end thread_index id' task s = Some s' →
     ∃ ns', namespaces_ s' !! id = Some ns' ∧
            completed_tasks ns `prefix_of` completed_tasks ns' ∧
            (id' = id → completed_tasks ns' = completed_tasks ns ++ [task])).
Proof.
  split_and!.
  - intros token g s Hns. destruct (decide (id = token)) as [->|Hne].
    + eexists. split; [apply SetTaskGraph_lookup|].
      rewrite SetTaskGraph_namespace_completed, Hns. by apply prefix_app_r.
    + exists ns. by rewrite SetTaskGraph_lookup_ne.
  - intros idx s s' id' task Hns Hbegin.
    destruct (RunTaskWithLockAcquired_begin_inv _ _ _ _ _ Hbegin)
      as (ns0 & ready1 & Hns0 & _ & Hm & _).
    rewrite Hm. destruct (decide (id = id')) as [->|Hne].
    + rewrite lookup_insert_eq. eexists. split; [done|]. cbn. congruence.
    + rewrite lookup_insert_ne by done. eauto.
  - intros idx s s' id' task Hns Hend.
    destruct (RunTaskWithLockAcquired_end_inv _ _ _ _ _ Hend)
      as (ns0 & ns' & Hns0 & Hm & _ & _ & Hcompl & _).
    rewrite Hm. destruct (decide (id = id')) as [->|Hne].
    + rewrite lookup_insert_eq. exists ns'. rewrite Hns in Hns0.
      injection Hns0 as <-. rewrite Hcompl.
      split_and!; [done|by apply prefix_app_r|done].
    + rewrite lookup_insert_ne by done. exists ns.
      split_and!; [done..|]. intros ->. done.
Qed.

End Handed_back.

(** ** Isolation of namespaces *)

Lemma CollectCompletedTasks_lookup_ne token out s :
  (namespaces_ s !! token = None →
     CollectCompletedTasks token out s = (s, out)) ∧
  (∀ id, id ≠ token →
     namespaces_ (CollectCompletedTasks token out s).1 !! id
     = namespaces_ s !! id).
Proof.
  unfold CollectCompletedTasks. split.
  - by intros ->.
  - intros id Hne. destruct (namespaces_ s !! token); [|done].
    destruct (HasFinishedRunningTasksInNamespace _); cbn [negb fst namespaces_].
    + by rewrite lookup_delete_ne.
    + by rewrite lookup_insert_ne.
Qed.

Section Isolation.
Context `{HA : HeapAlgorithms}.

(** X14: in a reachable state, [SetTaskGraph] and [CollectCompletedTasks]
    for one token leave every other namespace as it is (graph, ready queue,
    completed tasks and counter), and such a namespace is in
    [ready_to_run_namespaces_] afterwards exactly if it was before. *)
Theorem other_namespaces_untouched num_threads sys token id :
  reachable num_threads sys → id ≠ token →
  (∀ g,
     namespaces_ (SetTaskGraph token g (runner sys)).1 !! id
       = namespaces_ (runner sys) !! id ∧
     (id ∈ ready_to_run_namespaces_ (SetTaskGraph token g (runner sys)).1 ↔
      id ∈ ready_to_run_namespaces_ (runner sys))) ∧
  (∀ out,
     namespaces_ (CollectCompletedTasks token out (runner sys)).1 !! id
       = namespaces_ (runner sys) !! id ∧
     (id ∈ ready_to_run_namespaces_
             (CollectCompletedTasks token out (runner sys)).1 ↔
      id ∈ ready_to_run_namespaces_ (runner sys))).
Proof.
  intros Hreach Hne.
  pose proof (ready_invariant_reachable _ _ Hreach) as Hinv. split.
  - intros g.
    pose proof (ready_invariant_SetTaskGraph token g _ Hinv) as Hinv'.
    assert (Hlook : namespaces_ (SetTaskGraph token g (runner sys)).1 !! id
                    = namespaces_ (runner sys) !! id)
      by by apply SetTaskGraph_lookup_ne.
    split; [done|].
    by rewrite (inv_ready _ Hinv'), (inv_ready _ Hinv), Hlook.
  - intros out.
    pose proof (ready_invariant_CollectCompletedTasks token out _ Hinv) as Hinv'.
    assert (Hlook : namespaces_ (CollectCompletedTasks token out (runner sys)).1
                      !! id = namespaces_ (runner sys) !! id)
      by by apply CollectCompletedTasks_lookup_ne.
    split; [done|].
    by rewrite (inv_ready _ Hinv'), (inv_ready _ Hinv), Hlook.
Qed.

End Isolation.

(** ** The further properties at concrete inputs *)

Module Further_scenario.
Import Scenario.

#[local] Instance sorted_heap_algorithms : HeapAlgorithms :=
  SortedHeap.algorithms.

(** The worker of slot 0 is in the body of [A]. *)
Definition in_body_of_A : System :=
  mkSystem running_A (<[0%nat := (token, A)]> ∅).

(** [{A, B; A→B}] has been resubmitted and no worker is in a task body. *)
Definition idle : System := mkSystem resubmitted_AB ∅.

Lemma one_slot_fits : Z.of_nat (0 `max` 1) < UINT_MOD.
Proof. vm_compute. reflexivity. Qed.

Lemma ready_queues_are_heaps_witness :
  reachable 0 in_body_of_A ∧
  (∀ id ns, namespaces_ running_A !! id = Some ns →
     is_heap CompareTaskPriority (ready_to_run_tasks ns)) ∧
  is_heap (CompareTaskNamespacePriority (namespaces_ running_A))
          (ready_to_run_namespaces_ running_A).
Proof.
  split; [exact reachable_running_A|].
  exact (ready_queues_are_heaps 0%nat in_body_of_A reachable_running_A).
Defined.

Lemma running_tasks_mirror_workers_witness :
  reachable 0 in_body_of_A ∧
  length (running_tasks_ running_A) = 1%nat ∧
  running_tasks_ running_A !! 0%nat = Some (Some A).
Proof.
  split; [exact reachable_running_A|].
  destruct (running_tasks_mirror_workers 0%nat in_body_of_A reachable_running_A)
    as [Hlen Hslots].
  split; [exact Hlen|].
  assert (Hidx : (0 < length (running_tasks_ (runner in_body_of_A)))%nat)
    by (rewrite Hlen; vm_compute; constructor).
  etrans; [exact (Hslots 0%nat Hidx)|]. vm_compute. reflexivity.
Defined.

Lemma num_running_tasks_counts_workers_witness :
  Z.of_nat (0 `max` 1) < UINT_MOD ∧ reachable 0 in_body_of_A ∧
  num_running_tasks (namespace_of running_A) = 1.
Proof.
  split; [exact one_slot_fits|]. split; [exact reachable_running_A|].
  pose proof (num_running_tasks_counts_workers 0%nat in_body_of_A
                one_slot_fits reachable_running_A token) as H.
  assert (Hns : namespaces_ (runner in_body_of_A) !! token
                = Some (namespace_of running_A)) by (vm_compute; reflexivity).
  rewrite Hns in H. rewrite H. vm_compute. reflexivity.
Defined.

Lemma running_namespace_stays_witness :
  Z.of_nat (0 `max` 1) < UINT_MOD ∧ reachable 0 in_body_of_A ∧
  frames in_body_of_A !! 0%nat = Some (token, A) ∧
  ∃ ns, namespaces_ running_A !! token = Some ns ∧
        0 < num_running_tasks ns ∧
        (∀ out, is_Some
           (namespaces_ (CollectCompletedTasks token out running_A).1
              !! token)) ∧
        is_Some (RunTaskWithLockAcquired_end 0 token A running_A).
Proof.
  assert (Hfr : frames in_body_of_A !! 0%nat = Some (token, A))
    by (vm_compute; reflexivity).
  split; [exact one_slot_fits|]. split; [exact reachable_running_A|].
  split; [exact Hfr|].
  exact (running_namespace_stays 0%nat in_body_of_A 0%nat token A
           one_slot_fits reachable_running_A Hfr).
Defined.

Lemma idle_hypotheses :
  frames idle !! 0%nat = None ∧
  (0 < length (running_tasks_ (runner idle)))%nat ∧
  ready_to_run_namespaces_ (runner idle) ≠ [].
Proof.
  split; [vm_compute; reflexivity|]. split; [vm_compute; constructor|].
  vm_compute. discriminate.
Qed.

Lemma RunTaskWithLockAcquired_whole_witness :
  Z.of_nat (0 `max` 1) < UINT_MOD ∧ reachable 0 idle ∧
  frames idle !! 0%nat = None ∧
  (0 < length (running_tasks_ (runner idle)))%nat ∧
  ready_to_run_namespaces_ (runner idle) ≠ [] ∧
  ∃ s'' id ns ns'' pt,
    RunTaskWithLockAcquired 0 resubmitted_AB = Some s'' ∧
    namespaces_ resubmitted_AB !! id = Some ns ∧
    namespaces_ s'' !! id = Some ns'' ∧
    completed_tasks ns'' = completed_tasks ns ++ [pt_task pt] ∧
    num_running_tasks ns'' = num_running_tasks ns ∧
    running_tasks_ s'' = running_tasks_ resubmitted_AB.
Proof.
  destruct idle_hypotheses as (Hfr & Hidx & Hne).
  split; [exact one_slot_fits|]. split; [exact reachable_resubmitted_AB|].
  split; [exact Hfr|]. split; [exact Hidx|]. split; [exact Hne|].
  destruct (RunTaskWithLockAcquired_whole 0%nat idle 0%nat one_slot_fits
              reachable_resubmitted_AB Hfr Hidx Hne)
    as (s'' & id & ns & ns'' & pt & H1 & H2 & _ & H4 & H5 & H6 & _ & H8 & _).
  exists s'', id, ns, ns'', pt. split_and!; assumption.
Defined.

Lemma RunTaskForTesting_spec_witness :
  Z.of_nat (0 `max` 1) < UINT_MOD ∧ reachable 0 idle ∧
  frames idle !! 0%nat = None ∧
  ∃ s', RunTaskForTesting resubmitted_AB = Some (s', true).
Proof.
  destruct idle_hypotheses as (Hfr & _ & _).
  split; [exact one_slot_fits|]. split; [exact reachable_resubmitted_AB|].
  split; [exact Hfr|].
  destruct (RunTaskForTesting_spec 0%nat idle one_slot_fits
              reachable_resubmitted_AB Hfr)
    as (s' & b & Hrun & Hfalse & _).
  exists s'. etrans; [exact Hrun|]. destruct b; [reflexivity|].
  exfalso. destruct Hfalse as [Hall _].
  specialize (Hall eq_refl token (namespace_of resubmitted_AB)).
  assert (Hready : ready_to_run_tasks (namespace_of resubmitted_AB) = [])
    by (apply Hall; vm_compute; reflexivity).
  vm_compute in Hready. discriminate Hready.
Defined.

Lemma empty_graph_then_collect_witness :
  namespaces_ start !! token = None ∧ nodes G_empty = [] ∧
  (CollectCompletedTasks token [] (SetTaskGraph token G_empty start).1).2 = [] ∧
  namespaces_ (CollectCompletedTasks token []
                 (SetTaskGraph token G_empty start).1).1 = namespaces_ start.
Proof.
  assert (Hnone : namespaces_ start !! token = None) by (vm_compute; reflexivity).
  split; [exact Hnone|]. split; [reflexivity|].
  destruct (empty_graph_then_collect token G_empty start Hnone eq_refl)
    as (H1 & H2 & _).
  split; assumption.
Defined.

Lemma dispatched_task_is_node_witness :
  reachable 0 idle ∧
  RunTaskWithLockAcquired_begin 0 resubmitted_AB = Some (running_A, token, A) ∧
  ∃ ns n, namespaces_ resubmitted_AB !! token = Some ns ∧
          n ∈ nodes (graph ns) ∧ node_task n = A.
Proof.
  split; [exact reachable_resubmitted_AB|]. split; [exact dispatch_A|].
  destruct (dispatched_task_is_node 0%nat idle 0%nat running_A token A
              reachable_resubmitted_AB dispatch_A)
    as (ns & n & pt & H1 & _ & H3 & H4 & _).
  exists ns, n. split_and!; assumption.
Defined.

Lemma finished_task_fan_out_witness :
  reachable 0 in_body_of_A ∧
  RunTaskWithLockAcquired_end 0 token A running_A = Some finished_A ∧
  ∃ ns ns', namespaces_ running_A !! token = Some ns ∧
            namespaces_ finished_A !! token = Some ns' ∧
            edges (graph ns') = edges (graph ns) ∧
            completed_tasks ns' = completed_tasks ns ++ [A].
Proof.
  split; [exact reachable_running_A|]. split; [exact finish_A|].
  destruct (finished_task_fan_out 0%nat in_body_of_A 0%nat token A finished_A
              reachable_running_A finish_A)
    as (ns & ns' & H1 & H2 & H3 & _ & _ & H6 & _).
  exists ns, ns'. split_and!; assumption.
Defined.


Lemma other_namespaces_untouched_witness :
  reachable 0 idle ∧ 2%nat ≠ token ∧
  namespaces_ (SetTaskGraph token G_C resubmitted_AB).1 !! 2%nat
    = namespaces_ resubmitted_AB !! 2%nat.
Proof.
  assert (Hne : 2%nat ≠ token) by (vm_compute; discriminate).
  split; [exact reachable_resubmitted_AB|]. split; [exact Hne|].
  destruct (other_namespaces_untouched 0%nat idle token 2%nat
              reachable_resubmitted_AB Hne) as [Hset _].
  exact (proj1 (Hset G_C)).
Defined.

End Further_scenario.
